(** * Display width of Unicode code points: [wcwidth.c]

    A shallow embedding of [bisearch], [mk_wcwidth], [mk_wcswidth],
    [mk_wcwidth_cjk] and [mk_wcswidth_cjk], and of the two constant
    interval tables, followed by the properties of these functions.

    Conventions.  A C [unsigned int] code point is a [Z] in the range
    [0 .. 2^32 - 1]; the code only compares code points, it never does
    arithmetic on them.  A C [int] is a [Z] in the range
    [INT_MIN .. INT_MAX] of 32 bits.  The width that the sequence
    functions accumulate wraps around at that range ([int_wrap]), as
    the machines the program runs on do.  The indices of [bisearch] are
    computed without wrap-around: an overflow of [min + max] would send
    the code outside the table, so [bisearch] describes the code for
    tables of at most [2^30] entries, the bound its properties carry,
    and [bisearch_checked] makes the fault explicit.  The [size_t] count
    of the sequence functions is a [nat].  The memory behind the pointer
    [pwcs] is a function from offsets to code points, so that what the
    loop reads after the elements it consumes is part of the input. *)

From Stdlib Require Import ZArith List Bool Lia.
From Equations Require Import Equations.
Import ListNotations.

#[local] Open Scope Z_scope.

(** ** Data model *)

(** [struct interval { unsigned int first; unsigned int last; }] *)
Record interval : Type := IV { first : Z; last : Z }.

(** [table[i]] for an [int] index [i] inside the table.  Outside the
    table the C read is undefined and this one yields the interval
    [[0, 0]]; the properties below are about indices inside the table,
    and [entry_checked] is the read that fails outside. *)
Definition entry (table : list interval) (i : Z) : interval :=
  nth (Z.to_nat i) table (IV 0 0).

(** The range of a C [int] (32 bits). *)
Definition INT_MIN : Z := - 2 ^ 31.
Definition INT_MAX : Z := 2 ^ 31 - 1.
Definition int_ok (x : Z) : bool := (INT_MIN <=? x) && (x <=? INT_MAX).

(** The [int] that an [int] computation with exact result [x] leaves:
    [x] itself inside the range, [x] modulo [2^32] outside. *)
Definition int_wrap (x : Z) : Z := (x - INT_MIN) mod 2 ^ 32 + INT_MIN.

(** [(min + max) / 2] on [int]: C division truncates towards zero.  The
    sum is exact, which it is in C as long as it is an [int]: for indices
    of a table of at most [2^30] entries. *)
Definition midpoint (min max : Z) : Z := (min + max) ÷ 2.

(** ** [bisearch]: binary search in an interval table *)

(** The [while (max >= min)] loop of [bisearch], with [lo] and [hi] for
    the variables [min] and [max].  Every iteration either returns or
    shrinks the index range [lo .. hi]. *)
Equations? bisearch_loop (ucs : Z) (table : list interval) (lo hi : Z) : bool
  by wf (Z.to_nat (hi - lo + 1)) lt :=
  bisearch_loop ucs table lo hi with Z_ge_dec hi lo => {
    | right _ => false
    | left _ with Z_gt_dec ucs (last (entry table (midpoint lo hi))) => {
      | left _ => bisearch_loop ucs table (midpoint lo hi + 1) hi
      | right _ with Z_lt_dec ucs (first (entry table (midpoint lo hi))) => {
        | left _ => bisearch_loop ucs table lo (midpoint lo hi - 1)
        | right _ => true } } }.
Proof.
  all: unfold midpoint.
  - pose proof (Z.quot_le_lower_bound (lo + hi) 2 lo); lia.
  - pose proof (Z.quot_le_upper_bound (lo + hi) 2 hi); lia.
Qed.

(** [static int bisearch(unsigned int ucs, const struct interval *table, int max)] *)
Definition bisearch (ucs : Z) (table : list interval) (max : Z) : bool :=
  if (ucs <? first (entry table 0)) || (ucs >? last (entry table max))
  then false
  else bisearch_loop ucs table 0 max.

(** ** The constant tables of [mk_wcwidth] *)

(** [combining]: sorted list of non-overlapping intervals of non-spacing
    characters (all Mn, Me and Cf characters of Unicode 8.0.0). *)
Definition combining : list interval :=
  [ IV 0x00ad 0x00ad; IV 0x0300 0x036f; IV 0x0483 0x0489
  ; IV 0x0591 0x05bd; IV 0x05bf 0x05bf; IV 0x05c1 0x05c2
  ; IV 0x05c4 0x05c5; IV 0x05c7 0x05c7; IV 0x0600 0x0605
  ; IV 0x0610 0x061a; IV 0x061c 0x061c; IV 0x064b 0x065f
  ; IV 0x0670 0x0670; IV 0x06d6 0x06dd; IV 0x06df 0x06e4
  ; IV 0x06e7 0x06e8; IV 0x06ea 0x06ed; IV 0x070f 0x070f
  ; IV 0x0711 0x0711; IV 0x0730 0x074a; IV 0x07a6 0x07b0
  ; IV 0x07eb 0x07f3; IV 0x0816 0x0819; IV 0x081b 0x0823
  ; IV 0x0825 0x0827; IV 0x0829 0x082d; IV 0x0859 0x085b
  ; IV 0x08e3 0x0902; IV 0x093a 0x093a; IV 0x093c 0x093c
  ; IV 0x0941 0x0948; IV 0x094d 0x094d; IV 0x0951 0x0957
  ; IV 0x0962 0x0963; IV 0x0981 0x0981; IV 0x09bc 0x09bc
  ; IV 0x09c1 0x09c4; IV 0x09cd 0x09cd; IV 0x09e2 0x09e3
  ; IV 0x0a01 0x0a02; IV 0x0a3c 0x0a3c; IV 0x0a41 0x0a42
  ; IV 0x0a47 0x0a48; IV 0x0a4b 0x0a4d; IV 0x0a51 0x0a51
  ; IV 0x0a70 0x0a71; IV 0x0a75 0x0a75; IV 0x0a81 0x0a82
  ; IV 0x0abc 0x0abc; IV 0x0ac1 0x0ac5; IV 0x0ac7 0x0ac8
  ; IV 0x0acd 0x0acd; IV 0x0ae2 0x0ae3; IV 0x0b01 0x0b01
  ; IV 0x0b3c 0x0b3c; IV 0x0b3f 0x0b3f; IV 0x0b41 0x0b44
  ; IV 0x0b4d 0x0b4d; IV 0x0b56 0x0b56; IV 0x0b62 0x0b63
  ; IV 0x0b82 0x0b82; IV 0x0bc0 0x0bc0; IV 0x0bcd 0x0bcd
  ; IV 0x0c00 0x0c00; IV 0x0c3e 0x0c40; IV 0x0c46 0x0c48
  ; IV 0x0c4a 0x0c4d; IV 0x0c55 0x0c56; IV 0x0c62 0x0c63
  ; IV 0x0c81 0x0c81; IV 0x0cbc 0x0cbc; IV 0x0cbf 0x0cbf
  ; IV 0x0cc6 0x0cc6; IV 0x0ccc 0x0ccd; IV 0x0ce2 0x0ce3
  ; IV 0x0d01 0x0d01; IV 0x0d41 0x0d44; IV 0x0d4d 0x0d4d
  ; IV 0x0d62 0x0d63; IV 0x0dca 0x0dca; IV 0x0dd2 0x0dd4
  ; IV 0x0dd6 0x0dd6; IV 0x0e31 0x0e31; IV 0x0e34 0x0e3a
  ; IV 0x0e47 0x0e4e; IV 0x0eb1 0x0eb1; IV 0x0eb4 0x0eb9
  ; IV 0x0ebb 0x0ebc; IV 0x0ec8 0x0ecd; IV 0x0f18 0x0f19
  ; IV 0x0f35 0x0f35; IV 0x0f37 0x0f37; IV 0x0f39 0x0f39
  ; IV 0x0f71 0x0f7e; IV 0x0f80 0x0f84; IV 0x0f86 0x0f87
  ; IV 0x0f8d 0x0f97; IV 0x0f99 0x0fbc; IV 0x0fc6 0x0fc6
  ; IV 0x102d 0x1030; IV 0x1032 0x1037; IV 0x1039 0x103a
  ; IV 0x103d 0x103e; IV 0x1058 0x1059; IV 0x105e 0x1060
  ; IV 0x1071 0x1074; IV 0x1082 0x1082; IV 0x1085 0x1086
  ; IV 0x108d 0x108d; IV 0x109d 0x109d; IV 0x135d 0x135f
  ; IV 0x1712 0x1714; IV 0x1732 0x1734; IV 0x1752 0x1753
  ; IV 0x1772 0x1773; IV 0x17b4 0x17b5; IV 0x17b7 0x17bd
  ; IV 0x17c6 0x17c6; IV 0x17c9 0x17d3; IV 0x17dd 0x17dd
  ; IV 0x180b 0x180e; IV 0x18a9 0x18a9; IV 0x1920 0x1922
  ; IV 0x1927 0x1928; IV 0x1932 0x1932; IV 0x1939 0x193b
  ; IV 0x1a17 0x1a18; IV 0x1a1b 0x1a1b; IV 0x1a56 0x1a56
  ; IV 0x1a58 0x1a5e; IV 0x1a60 0x1a60; IV 0x1a62 0x1a62
  ; IV 0x1a65 0x1a6c; IV 0x1a73 0x1a7c; IV 0x1a7f 0x1a7f
  ; IV 0x1ab0 0x1abe; IV 0x1b00 0x1b03; IV 0x1b34 0x1b34
  ; IV 0x1b36 0x1b3a; IV 0x1b3c 0x1b3c; IV 0x1b42 0x1b42
  ; IV 0x1b6b 0x1b73; IV 0x1b80 0x1b81; IV 0x1ba2 0x1ba5
  ; IV 0x1ba8 0x1ba9; IV 0x1bab 0x1bad; IV 0x1be6 0x1be6
  ; IV 0x1be8 0x1be9; IV 0x1bed 0x1bed; IV 0x1bef 0x1bf1
  ; IV 0x1c2c 0x1c33; IV 0x1c36 0x1c37; IV 0x1cd0 0x1cd2
  ; IV 0x1cd4 0x1ce0; IV 0x1ce2 0x1ce8; IV 0x1ced 0x1ced
  ; IV 0x1cf4 0x1cf4; IV 0x1cf8 0x1cf9; IV 0x1dc0 0x1df5
  ; IV 0x1dfc 0x1dff; IV 0x200b 0x200f; IV 0x202a 0x202e
  ; IV 0x2060 0x2064; IV 0x2066 0x206f; IV 0x20d0 0x20f0
  ; IV 0x2cef 0x2cf1; IV 0x2d7f 0x2d7f; IV 0x2de0 0x2dff
  ; IV 0x302a 0x302d; IV 0x3099 0x309a; IV 0xa66f 0xa672
  ; IV 0xa674 0xa67d; IV 0xa69e 0xa69f; IV 0xa6f0 0xa6f1
  ; IV 0xa802 0xa802; IV 0xa806 0xa806; IV 0xa80b 0xa80b
  ; IV 0xa825 0xa826; IV 0xa8c4 0xa8c4; IV 0xa8e0 0xa8f1
  ; IV 0xa926 0xa92d; IV 0xa947 0xa951; IV 0xa980 0xa982
  ; IV 0xa9b3 0xa9b3; IV 0xa9b6 0xa9b9; IV 0xa9bc 0xa9bc
  ; IV 0xa9e5 0xa9e5; IV 0xaa29 0xaa2e; IV 0xaa31 0xaa32
  ; IV 0xaa35 0xaa36; IV 0xaa43 0xaa43; IV 0xaa4c 0xaa4c
  ; IV 0xaa7c 0xaa7c; IV 0xaab0 0xaab0; IV 0xaab2 0xaab4
  ; IV 0xaab7 0xaab8; IV 0xaabe 0xaabf; IV 0xaac1 0xaac1
  ; IV 0xaaec 0xaaed; IV 0xaaf6 0xaaf6; IV 0xabe5 0xabe5
  ; IV 0xabe8 0xabe8; IV 0xabed 0xabed; IV 0xfb1e 0xfb1e
  ; IV 0xfe00 0xfe0f; IV 0xfe20 0xfe2f; IV 0xfeff 0xfeff
  ; IV 0xfff9 0xfffb; IV 0x101fd 0x101fd; IV 0x102e0 0x102e0
  ; IV 0x10376 0x1037a; IV 0x10a01 0x10a03; IV 0x10a05 0x10a06
  ; IV 0x10a0c 0x10a0f; IV 0x10a38 0x10a3a; IV 0x10a3f 0x10a3f
  ; IV 0x10ae5 0x10ae6; IV 0x11001 0x11001; IV 0x11038 0x11046
  ; IV 0x1107f 0x11081; IV 0x110b3 0x110b6; IV 0x110b9 0x110ba
  ; IV 0x110bd 0x110bd; IV 0x11100 0x11102; IV 0x11127 0x1112b
  ; IV 0x1112d 0x11134; IV 0x11173 0x11173; IV 0x11180 0x11181
  ; IV 0x111b6 0x111be; IV 0x111ca 0x111cc; IV 0x1122f 0x11231
  ; IV 0x11234 0x11234; IV 0x11236 0x11237; IV 0x112df 0x112df
  ; IV 0x112e3 0x112ea; IV 0x11300 0x11301; IV 0x1133c 0x1133c
  ; IV 0x11340 0x11340; IV 0x11366 0x1136c; IV 0x11370 0x11374
  ; IV 0x114b3 0x114b8; IV 0x114ba 0x114ba; IV 0x114bf 0x114c0
  ; IV 0x114c2 0x114c3; IV 0x115b2 0x115b5; IV 0x115bc 0x115bd
  ; IV 0x115bf 0x115c0; IV 0x115dc 0x115dd; IV 0x11633 0x1163a
  ; IV 0x1163d 0x1163d; IV 0x1163f 0x11640; IV 0x116ab 0x116ab
  ; IV 0x116ad 0x116ad; IV 0x116b0 0x116b5; IV 0x116b7 0x116b7
  ; IV 0x1171d 0x1171f; IV 0x11722 0x11725; IV 0x11727 0x1172b
  ; IV 0x16af0 0x16af4; IV 0x16b30 0x16b36; IV 0x16f8f 0x16f92
  ; IV 0x1bc9d 0x1bc9e; IV 0x1bca0 0x1bca3; IV 0x1d167 0x1d169
  ; IV 0x1d173 0x1d182; IV 0x1d185 0x1d18b; IV 0x1d1aa 0x1d1ad
  ; IV 0x1d242 0x1d244; IV 0x1da00 0x1da36; IV 0x1da3b 0x1da6c
  ; IV 0x1da75 0x1da75; IV 0x1da84 0x1da84; IV 0x1da9b 0x1da9f
  ; IV 0x1daa1 0x1daaf; IV 0x1e8d0 0x1e8d6; IV 0xe0001 0xe0001
  ; IV 0xe0020 0xe007f; IV 0xe0100 0xe01ef ].

(** [wide]: sorted list of non-overlapping intervals of wide characters
    (all W and F characters of Unicode 8.0.0). *)
Definition wide : list interval :=
  [ IV 0x1100 0x115f; IV 0x2329 0x232a; IV 0x2e80 0x2e99
  ; IV 0x2e9b 0x2ef3; IV 0x2f00 0x2fd5; IV 0x2ff0 0x2ffb
  ; IV 0x3000 0x303e; IV 0x3041 0x3096; IV 0x3099 0x30ff
  ; IV 0x3105 0x312d; IV 0x3131 0x318e; IV 0x3190 0x31ba
  ; IV 0x31c0 0x31e3; IV 0x31f0 0x321e; IV 0x3220 0x3247
  ; IV 0x3250 0x32fe; IV 0x3300 0x4dbf; IV 0x4e00 0xa48c
  ; IV 0xa490 0xa4c6; IV 0xa960 0xa97c; IV 0xac00 0xd7a3
  ; IV 0xf900 0xfaff; IV 0xfe10 0xfe19; IV 0xfe30 0xfe52
  ; IV 0xfe54 0xfe66; IV 0xfe68 0xfe6b; IV 0xff01 0xff60
  ; IV 0xffe0 0xffe6; IV 0x1b000 0x1b001; IV 0x1f200 0x1f202
  ; IV 0x1f210 0x1f23a; IV 0x1f240 0x1f248; IV 0x1f250 0x1f251
  ; IV 0x20000 0x2fffd; IV 0x30000 0x3fffd ].


(** ** [mk_wcwidth]: column width of one code point *)

(** The [max] argument of both calls:
    [sizeof(table) / sizeof(struct interval) - 1]. *)
Definition last_index (table : list interval) : Z :=
  Z.of_nat (length table) - 1.

(** [int mk_wcwidth(unsigned int ucs)] *)
Definition mk_wcwidth (ucs : Z) : Z :=
  if ucs <? 0x0300 then
    if ucs =? 0 then 0
    else if (ucs <? 32) || ((ucs >=? 0x7f) && (ucs <? 0xa0)) then -1
    else 1
  else if bisearch ucs combining (last_index combining) then 0
  else if ucs <? 0x1100 then 1
  else if (ucs >=? 0x1160) && (ucs <=? 0x11FF) then 0
  else 1 + Z.b2z (bisearch ucs wide (last_index wide)).

(** [int mk_wcwidth_cjk(unsigned int ucs)] *)
Definition mk_wcwidth_cjk (ucs : Z) : Z :=
  let w := mk_wcwidth ucs in
  if (w =? 1) && (ucs >=? 0x00A1) && (ucs <? 0xFF61) && negb (ucs =? 0x20A9)
  then 2
  else w.

(** ** [mk_wcswidth]: column width of a sequence *)

(** The memory behind [const unsigned int *pwcs]: [pwcs i] is [pwcs[i]]. *)
Definition buffer : Type := nat -> Z.

(** A buffer that starts with the code points [l] and goes on with [rest]. *)
Definition cells (l : list Z) (rest : buffer) : buffer :=
  fun i => match nth_error l i with
           | Some c => c
           | None => rest (i - length l)%nat
           end.

(** The [for (; *pwcs && n-- > 0; pwcs++)] loop of [mk_wcswidth], with the
    pointer as the offset [i] into the buffer.  The test reads [*pwcs]
    first and looks at the count only when the code point is not zero;
    the count is a [size_t], and its wrap-around when [n--] meets zero
    is never observed, the loop being left at once.  [width += w] is an
    [int] addition. *)
Fixpoint mk_wcswidth_loop (pwcs : buffer) (i n : nat) (width : Z) : Z :=
  if pwcs i =? 0 then width
  else match n with
       | O => width
       | S n' =>
           let w := mk_wcwidth (pwcs i) in
           if w <? 0 then -1
           else mk_wcswidth_loop pwcs (S i) n' (int_wrap (width + w))
       end.

(** [int mk_wcswidth(const unsigned int *pwcs, size_t n)] *)
Definition mk_wcswidth (pwcs : buffer) (n : nat) : Z :=
  mk_wcswidth_loop pwcs 0%nat n 0.

(** The same loop in [mk_wcswidth_cjk], calling [mk_wcwidth_cjk]. *)
Fixpoint mk_wcswidth_cjk_loop (pwcs : buffer) (i n : nat) (width : Z) : Z :=
  if pwcs i =? 0 then width
  else match n with
       | O => width
       | S n' =>
           let w := mk_wcwidth_cjk (pwcs i) in
           if w <? 0 then -1
           else mk_wcswidth_cjk_loop pwcs (S i) n' (int_wrap (width + w))
       end.

(** [int mk_wcswidth_cjk(const unsigned int *pwcs, size_t n)] *)
Definition mk_wcswidth_cjk (pwcs : buffer) (n : nat) : Z :=
  mk_wcswidth_cjk_loop pwcs 0%nat n 0.

(** ** Vocabulary of the properties *)

(** A code point is an [unsigned int]. *)
Definition code_point (c : Z) : Prop := 0 <= c < 2 ^ 32.

(** [ucs] lies in the inclusive range of [iv]. *)
Definition in_interval (ucs : Z) (iv : interval) : Prop :=
  first iv <= ucs <= last iv.

(** [ucs] lies in some interval of [table]. *)
Definition in_table (ucs : Z) (table : list interval) : Prop :=
  exists iv, In iv table /\ in_interval ucs iv.

(** Linear membership test, the executable form of [in_table]. *)
Definition in_tableb (ucs : Z) (table : list interval) : bool :=
  existsb (fun iv => (first iv <=? ucs) && (ucs <=? last iv)) table.

(** The invariant of an interval table: every entry is a range, and each
    entry ends strictly before the next one starts. *)
Definition table_invariant (table : list interval) : Prop :=
  (forall iv, In iv table -> first iv <= last iv) /\
  (forall i, (S i < length table)%nat ->
     last (nth i table (IV 0 0)) < first (nth (S i) table (IV 0 0))).

(** Executable check of [table_invariant]. *)
Fixpoint table_invariantb (table : list interval) : bool :=
  match table with
  | [] => true
  | iv :: rest =>
      (first iv <=? last iv)
      && match rest with
         | [] => true
         | next :: _ => last iv <? first next
         end
      && table_invariantb rest
  end.

(** The number of elements [mk_wcswidth pwcs n] consumes from offset [i]:
    it stops at the first zero code point or after [n] elements. *)
Fixpoint consumed (pwcs : buffer) (i n : nat) : nat :=
  match n with
  | O => O
  | S n' => if pwcs i =? 0 then O else S (consumed pwcs (S i) n')
  end.

(** The sum of the widths [wc] gives to [pwcs[i]], ..., [pwcs[i + k - 1]]. *)
Fixpoint sum_widths (wc : Z -> Z) (pwcs : buffer) (i k : nat) : Z :=
  match k with
  | O => 0
  | S k' => wc (pwcs i) + sum_widths wc pwcs (S i) k'
  end.

(** [k] is where the traversal of [pwcs] with limit [n] stops: the
    position of the first zero code point, or [n] if that comes first. *)
Definition stops_at (pwcs : buffer) (n k : nat) : Prop :=
  (k <= n)%nat /\
  (forall j, (j < k)%nat -> pwcs j <> 0) /\
  ((k < n)%nat -> pwcs k = 0).

(** The loop both sequence functions share, over the classifier [wc]. *)
Fixpoint width_loop (wc : Z -> Z) (pwcs : buffer) (i n : nat) (width : Z) : Z :=
  if pwcs i =? 0 then width
  else match n with
       | O => width
       | S n' =>
           if wc (pwcs i) <? 0 then -1
           else width_loop wc pwcs (S i) n' (int_wrap (width + wc (pwcs i)))
       end.

(** ** Instrumented variants of the loops *)

(** [table[i]] as a read that fails outside the table. *)
Definition entry_checked (table : list interval) (i : Z) : option interval :=
  if i <? 0 then None else nth_error table (Z.to_nat i).

(** The loop of [bisearch] with its faults made explicit: the result is
    [None] when an [int] computation ([min + max], [mid + 1], [mid - 1])
    leaves the range of [int] or when [table[mid]] lies outside the
    table. *)
Equations? bisearch_loop_checked (ucs : Z) (table : list interval) (lo hi : Z)
  : option bool by wf (Z.to_nat (hi - lo + 1)) lt :=
  bisearch_loop_checked ucs table lo hi with Z_ge_dec hi lo => {
    | right _ => Some false
    | left _ with int_ok (lo + hi) => {
      | false => None
      | true with entry_checked table (midpoint lo hi) => {
        | None => None
        | Some iv with Z_gt_dec ucs (last iv) => {
          | left _ with int_ok (midpoint lo hi + 1) => {
            | false => None
            | true => bisearch_loop_checked ucs table (midpoint lo hi + 1) hi }
          | right _ with Z_lt_dec ucs (first iv) => {
            | left _ with int_ok (midpoint lo hi - 1) => {
              | false => None
              | true => bisearch_loop_checked ucs table lo (midpoint lo hi - 1) }
            | right _ => Some true } } } } }.
Proof.
  all: unfold midpoint.
  - pose proof (Z.quot_le_lower_bound (lo + hi) 2 lo); lia.
  - pose proof (Z.quot_le_upper_bound (lo + hi) 2 hi); lia.
Qed.

(** [bisearch] with the same faults made explicit.  The test
    [ucs < table[0].first || ucs > table[max].last] reads [table[max]]
    only when its first half is false. *)
Definition bisearch_checked (ucs : Z) (table : list interval) (max : Z)
  : option bool :=
  match entry_checked table 0 with
  | None => None
  | Some e0 =>
      if ucs <? first e0 then Some false
      else match entry_checked table max with
           | None => None
           | Some em =>
               if ucs >? last em then Some false
               else bisearch_loop_checked ucs table 0 max
           end
  end.

(** The number of times the body of the loop of [bisearch] runs, that is
    the number of entries [table[mid]] it inspects. *)
Equations? bisearch_loop_iterations (ucs : Z) (table : list interval) (lo hi : Z)
  : nat by wf (Z.to_nat (hi - lo + 1)) lt :=
  bisearch_loop_iterations ucs table lo hi with Z_ge_dec hi lo => {
    | right _ => 0%nat
    | left _ with Z_gt_dec ucs (last (entry table (midpoint lo hi))) => {
      | left _ => S (bisearch_loop_iterations ucs table (midpoint lo hi + 1) hi)
      | right _ with Z_lt_dec ucs (first (entry table (midpoint lo hi))) => {
        | left _ =>
            S (bisearch_loop_iterations ucs table lo (midpoint lo hi - 1))
        | right _ => 1%nat } } }.
Proof.
  all: unfold midpoint.
  - pose proof (Z.quot_le_lower_bound (lo + hi) 2 lo); lia.
  - pose proof (Z.quot_le_upper_bound (lo + hi) 2 hi); lia.
Qed.

(** The offsets at which the loop of [mk_wcswidth] evaluates [*pwcs], in
    order, starting at offset [i] with count [n]. *)
Fixpoint mk_wcswidth_reads (pwcs : buffer) (i n : nat) : list nat :=
  i :: (if pwcs i =? 0 then []
        else match n with
             | O => []
             | S n' =>
                 if mk_wcwidth (pwcs i) <? 0 then []
                 else mk_wcswidth_reads pwcs (S i) n'
             end).

(** The pointer [pwcs + m]. *)
Definition advance (pwcs : buffer) (m : nat) : buffer :=
  fun j => pwcs (m + j)%nat.

(** The buffer [pwcs] with the code point [c] written at offset [p]. *)
Definition update (pwcs : buffer) (p : nat) (c : Z) : buffer :=
  fun j => if Nat.eqb j p then c else pwcs j.

(** The table of the [n] one-point intervals [[0, 0]], [[2, 2]],
    [[4, 4]], ... *)
Definition stride_table (n : nat) : list interval :=
  map (fun i => IV (2 * Z.of_nat i) (2 * Z.of_nat i)) (seq 0 n).

(** The intervals two tables have in common. *)
Definition common (t1 t2 : list interval) : list interval :=
  flat_map
    (fun a =>
       flat_map
         (fun b =>
            if Z.max (first a) (first b) <=? Z.min (last a) (last b)
            then [IV (Z.max (first a) (first b)) (Z.min (last a) (last b))]
            else [])
         t2)
    t1.

(** * Properties *)

(** ** Interval tables *)

Lemma in_tableb_spec ucs table :
  in_tableb ucs table = true <-> in_table ucs table.
Proof.
  unfold in_tableb, in_table, in_interval. rewrite existsb_exists.
  split; intros [iv [Hin H]]; exists iv; split; auto; lia.
Qed.

Lemma table_invariantb_spec table :
  table_invariantb table = true <-> table_invariant table.
Proof.
  unfold table_invariant.
  induction table as [|iv rest IH]; simpl.
  - split; auto. intros _. split; [tauto | simpl; lia].
  - rewrite !andb_true_iff, IH, Z.leb_le. split.
    + intros [[Hiv Hnext] [Hall Hadj]]. split.
      * intros iv' [<- | Hin]; auto.
      * intros [|i] Hi.
        -- destruct rest as [|next rest']; simpl in *; lia.
        -- apply Hadj. lia.
    + intros [Hall Hadj]. repeat split.
      * apply Hall. now left.
      * destruct rest as [|next rest']; auto.
        apply Z.ltb_lt. apply (Hadj 0%nat). simpl. lia.
      * intros iv' Hin. apply Hall. now right.
      * intros i Hi. apply (Hadj (S i)). lia.
Qed.

(** The midpoint lies in the index range, and the sum it is computed
    from is at most twice the upper index. *)
Lemma mid_between lo hi :
  0 <= lo <= hi ->
  lo <= midpoint lo hi <= hi /\ 0 <= lo + hi <= 2 * hi.
Proof.
  intros H. unfold midpoint.
  pose proof (Z.quot_le_lower_bound (lo + hi) 2 lo).
  pose proof (Z.quot_le_upper_bound (lo + hi) 2 hi). lia.
Qed.

Section SortedTable.

Variable table : list interval.
Hypothesis Hinv : table_invariant table.

Lemma entry_in i :
  0 <= i < Z.of_nat (length table) -> In (entry table i) table.
Proof. intros Hi. apply nth_In. lia. Qed.

Lemma in_entry iv :
  In iv table ->
  exists i, 0 <= i < Z.of_nat (length table) /\ entry table i = iv.
Proof.
  intros Hin. destruct (In_nth _ _ (IV 0 0) Hin) as [k [Hk Hnth]].
  exists (Z.of_nat k). split; [lia|].
  unfold entry. now rewrite Nat2Z.id.
Qed.

Lemma entry_range i :
  0 <= i < Z.of_nat (length table) ->
  first (entry table i) <= last (entry table i).
Proof. intros Hi. apply Hinv, entry_in, Hi. Qed.

(** Entries further right start after entries further left end. *)
Lemma entry_ordered_nat (i d : nat) :
  (i + S d < length table)%nat ->
  last (nth i table (IV 0 0)) < first (nth (i + S d) table (IV 0 0)).
Proof.
  destruct Hinv as [Hrange Hadj].
  induction d as [|d IH]; intros Hlen.
  - replace (i + 1)%nat with (S i) by lia. apply Hadj. lia.
  - specialize (IH ltac:(lia)).
    pose proof (Hrange (nth (i + S d) table (IV 0 0))
                  ltac:(apply nth_In; lia)).
    pose proof (Hadj (i + S d)%nat ltac:(lia)).
    replace (i + S (S d))%nat with (S (i + S d)) by lia. lia.
Qed.

Lemma entry_ordered i j :
  0 <= i -> i < j -> j < Z.of_nat (length table) ->
  last (entry table i) < first (entry table j).
Proof.
  intros Hi Hij Hj. unfold entry.
  replace (Z.to_nat j) with (Z.to_nat i + S (Z.to_nat (j - i - 1)))%nat by lia.
  apply entry_ordered_nat. lia.
Qed.

Lemma entry_last_mono i j :
  0 <= i -> i <= j -> j < Z.of_nat (length table) ->
  last (entry table i) <= last (entry table j).
Proof.
  intros Hi Hij Hj. destruct (Z.eq_dec i j) as [->|Hne]; [lia|].
  pose proof (entry_ordered i j). pose proof (entry_range j). lia.
Qed.

Lemma entry_first_mono i j :
  0 <= i -> i <= j -> j < Z.of_nat (length table) ->
  first (entry table i) <= first (entry table j).
Proof.
  intros Hi Hij Hj. destruct (Z.eq_dec i j) as [->|Hne]; [lia|].
  pose proof (entry_ordered i j). pose proof (entry_range i). lia.
Qed.

(** The loop decides membership in the entries [lo .. hi]. *)
Lemma bisearch_loop_spec ucs lo hi :
  0 <= lo -> hi < Z.of_nat (length table) ->
  bisearch_loop ucs table lo hi = true <->
  exists i, lo <= i <= hi /\ in_interval ucs (entry table i).
Proof.
  funelim (bisearch_loop ucs table lo hi); intros Hlo Hhi;
    try (destruct (mid_between lo hi ltac:(lia)) as [Hmid _]).
  - (* max < min: the loop is left *)
    split; [discriminate | intros [i [Hi _]]; lia].
  - (* ucs > table[mid].last: min = mid + 1 *)
    match goal with IH : _ -> _ -> _ <-> _ |- _ => rewrite IH by lia end.
    split; intros [i [Hi Hin]]; exists i.
    + split; [lia | easy].
    + split; [| easy].
      destruct (Z_le_gt_dec i (midpoint lo hi)); [| lia].
      pose proof (entry_last_mono i (midpoint lo hi)).
      unfold in_interval in Hin. lia.
  - (* ucs < table[mid].first: max = mid - 1 *)
    match goal with IH : _ -> _ -> _ <-> _ |- _ => rewrite IH by lia end.
    split; intros [i [Hi Hin]]; exists i.
    + split; [lia | easy].
    + split; [| easy].
      destruct (Z_le_gt_dec (midpoint lo hi) i); [| lia].
      pose proof (entry_first_mono (midpoint lo hi) i).
      unfold in_interval in Hin. lia.
  - (* table[mid].first <= ucs <= table[mid].last: found *)
    split; [intros _ | easy].
    exists (midpoint lo hi). unfold in_interval. lia.
Qed.

End SortedTable.

(** [bisearch] on a non-empty table that satisfies the invariant computes
    the same answer as the linear scan of the table. *)
Lemma bisearch_in_tableb ucs table :
  table <> [] -> table_invariant table ->
  bisearch ucs table (last_index table) = in_tableb ucs table.
Proof.
  intros Hne Hinv.
  assert (Hlen : 0 < Z.of_nat (length table)).
  { destruct table; [congruence | simpl; lia]. }
  assert (Hloop : bisearch_loop ucs table 0 (last_index table) = true <->
                  in_table ucs table).
  { unfold last_index. rewrite (bisearch_loop_spec table Hinv) by lia.
    split.
    - intros [i [Hi Hin]]. exists (entry table i). split; [| easy].
      apply entry_in. lia.
    - intros [iv [Hin Hiv]]. destruct (in_entry table iv Hin) as [i [Hi <-]].
      exists i. split; [lia | easy]. }
  unfold bisearch.
  destruct (Z.ltb_spec ucs (first (entry table 0))) as [Hlow | Hlow];
    [| destruct (Z.gtb_spec ucs (last (entry table (last_index table))))
         as [Hhigh | Hhigh] ]; simpl.
  - (* ucs < table[0].first *)
    symmetry. apply not_true_is_false. rewrite in_tableb_spec.
    intros [iv [Hin Hiv]]. destruct (in_entry table iv Hin) as [i [Hi <-]].
    pose proof (entry_first_mono table Hinv 0 i). unfold in_interval in Hiv. lia.
  - (* ucs > table[max].last *)
    symmetry. apply not_true_is_false. rewrite in_tableb_spec.
    intros [iv [Hin Hiv]]. destruct (in_entry table iv Hin) as [i [Hi <-]].
    pose proof (entry_last_mono table Hinv i (last_index table)).
    unfold in_interval, last_index in *. lia.
  - apply eq_true_iff_eq. rewrite Hloop, in_tableb_spec. tauto.
Qed.

Lemma combining_invariant : table_invariant combining.
Proof. apply table_invariantb_spec. vm_compute. reflexivity. Qed.

Lemma wide_invariant : table_invariant wide.
Proof. apply table_invariantb_spec. vm_compute. reflexivity. Qed.

Lemma bisearch_combining ucs :
  bisearch ucs combining (last_index combining) = in_tableb ucs combining.
Proof. apply bisearch_in_tableb; [discriminate | apply combining_invariant]. Qed.

Lemma bisearch_wide ucs :
  bisearch ucs wide (last_index wide) = in_tableb ucs wide.
Proof. apply bisearch_in_tableb; [discriminate | apply wide_invariant]. Qed.

(** A property of every interval of a table, checked entry by entry,
    holds of the interval a member code point lies in. *)
Lemma in_table_forallb (p : interval -> bool) ucs table :
  forallb p table = true -> in_table ucs table ->
  exists iv, p iv = true /\ in_interval ucs iv.
Proof.
  intros Hall [iv [Hin Hiv]]. exists iv. split; [| easy].
  rewrite forallb_forall in Hall. now apply Hall.
Qed.

(** C9: both constant tables, [combining] (zero width) and [wide], satisfy
    the table invariant: every entry has [first <= last], and for
    consecutive entries [i], [i + 1] the [last] of entry [i] is strictly
    below the [first] of entry [i + 1]. *)
Theorem tables_satisfy_invariant :
  table_invariant combining /\ table_invariant wide.
Proof. split; [exact combining_invariant | exact wide_invariant]. Qed.

(** ** The classifier [mk_wcwidth] *)

(** The classifier above the fast path, with the binary searches replaced
    by membership in the tables. *)
Lemma mk_wcwidth_high ucs :
  0x0300 <= ucs ->
  mk_wcwidth ucs =
    if in_tableb ucs combining then 0
    else if ucs <? 0x1100 then 1
    else if (ucs >=? 0x1160) && (ucs <=? 0x11FF) then 0
    else 1 + Z.b2z (in_tableb ucs wide).
Proof.
  intros H. unfold mk_wcwidth.
  rewrite bisearch_combining, bisearch_wide.
  destruct (Z.ltb_spec ucs 0x0300); [lia | reflexivity].
Qed.

(** The classifier on the fast path. *)
Lemma mk_wcwidth_low ucs :
  ucs < 0x0300 ->
  mk_wcwidth ucs =
    if ucs =? 0 then 0
    else if (ucs <? 32) || ((ucs >=? 0x7f) && (ucs <? 0xa0)) then -1
    else 1.
Proof.
  intros H. unfold mk_wcwidth.
  destruct (Z.ltb_spec ucs 0x0300); [reflexivity | lia].
Qed.

Lemma mk_wcwidth_range ucs :
  mk_wcwidth ucs = -1 \/ mk_wcwidth ucs = 0 \/
  mk_wcwidth ucs = 1 \/ mk_wcwidth ucs = 2.
Proof.
  destruct (Z_lt_ge_dec ucs 0x0300) as [Hlow | Hhigh].
  - rewrite mk_wcwidth_low by assumption.
    destruct (ucs =? 0); [tauto |].
    destruct ((ucs <? 32) || ((ucs >=? 0x7f) && (ucs <? 0xa0))); tauto.
  - rewrite mk_wcwidth_high by lia.
    destruct (in_tableb ucs combining); [tauto |].
    destruct (ucs <? 0x1100); [tauto |].
    destruct ((ucs >=? 0x1160) && (ucs <=? 0x11FF)); [tauto |].
    destruct (in_tableb ucs wide); simpl; tauto.
Qed.

(** Where the tables lie: facts checked on every entry. *)

Lemma wide_above_jamo ucs :
  in_table ucs wide ->
  0x1100 <= ucs /\ ~ (0x1160 <= ucs <= 0x11FF).
Proof.
  intros Hin.
  destruct (in_table_forallb
              (fun iv => (0x1100 <=? first iv)
                         && ((last iv <? 0x1160) || (0x11FF <? first iv)))
              ucs wide ltac:(vm_compute; reflexivity) Hin) as [iv [Hp Hiv]].
  unfold in_interval in Hiv.
  apply andb_true_iff in Hp as [H1 H2]. apply orb_true_iff in H2. lia.
Qed.

Lemma combining_soft_hyphen_or_high ucs :
  in_table ucs combining -> ucs = 0x00AD \/ 0x0300 <= ucs.
Proof.
  intros Hin.
  destruct (in_table_forallb
              (fun iv => ((first iv =? 0x00AD) && (last iv =? 0x00AD))
                         || (0x0300 <=? first iv))
              ucs combining ltac:(vm_compute; reflexivity) Hin) as [iv [Hp Hiv]].
  unfold in_interval in Hiv.
  apply orb_true_iff in Hp as [Hp | Hp]; [apply andb_true_iff in Hp |]; lia.
Qed.

Lemma outside_range table lo hi ucs :
  forallb (fun iv => (last iv <? lo) || (hi <? first iv)) table = true ->
  lo <= ucs <= hi -> ~ in_table ucs table.
Proof.
  intros Hall Hc Hin.
  destruct (in_table_forallb _ ucs table Hall Hin) as [iv [Hp Hiv]].
  unfold in_interval in Hiv. apply orb_true_iff in Hp. lia.
Qed.

Lemma not_in_tableb ucs table :
  ~ in_table ucs table -> in_tableb ucs table = false.
Proof. rewrite <- in_tableb_spec. apply not_true_is_false. Qed.

(** C1: the classifier is total: for every unsigned 32-bit code point [c],
    [mk_wcwidth c] is a value, and that value is one of -1, 0, 1, 2.
    (The function is a pure, total function of its argument: it has no
    state to change and no failure to report.) *)
Theorem mk_wcwidth_total (c : Z) :
  code_point c ->
  exists w, mk_wcwidth c = w /\ In w [-1; 0; 1; 2].
Proof.
  intros _. exists (mk_wcwidth c). split; [reflexivity |].
  simpl. destruct (mk_wcwidth_range c) as [H | [H | [H | H]]]; rewrite H; tauto.
Qed.

Lemma mk_wcwidth_total_witness :
  code_point 0x4E2D /\ exists w, mk_wcwidth 0x4E2D = w /\ In w [-1; 0; 1; 2].
Proof.
  assert (H : code_point 0x4E2D) by (unfold code_point; lia).
  split; [exact H | exact (mk_wcwidth_total 0x4E2D H)].
Defined.

(** C6: the fast path for low code points: [mk_wcwidth 0 = 0]; every [c]
    in [1 .. 0x1F] and every [c] in [0x7F .. 0x9F] has width -1; every
    other [c] below [0x300] has width 1, the soft hyphen [0x00AD]
    included. *)
Theorem mk_wcwidth_fast_path :
  mk_wcwidth 0 = 0 /\
  (forall c, 1 <= c <= 0x1F \/ 0x7F <= c <= 0x9F -> mk_wcwidth c = -1) /\
  (forall c, 0 <= c < 0x0300 -> c <> 0 ->
             ~ (1 <= c <= 0x1F) -> ~ (0x7F <= c <= 0x9F) ->
             mk_wcwidth c = 1) /\
  mk_wcwidth 0x00AD = 1.
Proof.
  assert (Hother : forall c, 0 <= c < 0x0300 -> c <> 0 ->
             ~ (1 <= c <= 0x1F) -> ~ (0x7F <= c <= 0x9F) -> mk_wcwidth c = 1).
  { intros c Hc H0 H1 H2. rewrite mk_wcwidth_low by lia.
    destruct (Z.eqb_spec c 0); [lia |].
    destruct (Z.ltb_spec c 32); [lia |].
    destruct (Z.geb_spec c 0x7f); [| reflexivity].
    destruct (Z.ltb_spec c 0xa0); [lia | reflexivity]. }
  split; [reflexivity | split; [| split; [exact Hother |]]].
  - intros c Hc. rewrite mk_wcwidth_low by lia.
    destruct (Z.eqb_spec c 0); [lia |].
    destruct (Z.ltb_spec c 32); [reflexivity |].
    destruct (Z.geb_spec c 0x7f); [| lia].
    destruct (Z.ltb_spec c 0xa0); [reflexivity | lia].
  - apply Hother; lia.
Qed.

Lemma mk_wcwidth_fast_path_witness :
  mk_wcwidth 0x07 = -1 /\ mk_wcwidth 0x9F = -1 /\ mk_wcwidth 0x41 = 1.
Proof.
  destruct mk_wcwidth_fast_path as [_ [Hctl [Hother _]]].
  split; [apply Hctl; lia | split; [apply Hctl; lia | apply Hother; lia]].
Defined.

(** C8: every code point [c] in [0x1160 .. 0x11FF] (Hangul Jamo medial
    vowels and final consonants) has width 0, although no interval of the
    zero-width table [combining] contains it. *)
Theorem mk_wcwidth_hangul_jamo (c : Z) :
  0x1160 <= c <= 0x11FF ->
  mk_wcwidth c = 0 /\ ~ in_table c combining.
Proof.
  intros Hc.
  assert (Hout : ~ in_table c combining).
  { apply (outside_range combining 0x1160 0x11FF);
      [vm_compute; reflexivity | exact Hc]. }
  split; [| exact Hout].
  rewrite mk_wcwidth_high by lia. rewrite (not_in_tableb _ _ Hout).
  destruct (Z.ltb_spec c 0x1100); [lia |].
  destruct (Z.geb_spec c 0x1160); [| lia].
  destruct (Z.leb_spec c 0x11FF); [reflexivity | lia].
Qed.

Lemma mk_wcwidth_hangul_jamo_witness :
  0x1160 <= 0x11A8 <= 0x11FF /\
  mk_wcwidth 0x11A8 = 0 /\ ~ in_table 0x11A8 combining.
Proof.
  assert (H : 0x1160 <= 0x11A8 <= 0x11FF) by lia.
  split; [exact H | exact (mk_wcwidth_hangul_jamo 0x11A8 H)].
Defined.

(** C4, as the claim states it, fails: [0x3099] (combining voiced sound
    mark) lies in the interval [0x3099 .. 0x30FF] of [wide] and also in
    the interval [0x3099 .. 0x309A] of [combining], which is searched
    first, so its width is 0 and not 2. *)
Lemma wide_member_of_width_0 :
  code_point 0x3099 /\ in_table 0x3099 wide /\
  mk_wcwidth 0x3099 = 0 /\ mk_wcwidth 0x3099 <> 2.
Proof.
  split; [unfold code_point; lia |].
  split; [apply in_tableb_spec; vm_compute; reflexivity |].
  assert (H : mk_wcwidth 0x3099 = 0) by (vm_compute; reflexivity).
  split; [exact H | rewrite H; discriminate].
Qed.

(** C4 (amended): every code point [c] that lies in some interval of
    [wide] and in no interval of [combining] has width 2, while a code
    point that lies in both tables has width 0; the ranges
    [0x4E00 .. 0xA48C] and [0xAC00 .. 0xD7A3] are of the first kind. *)
Theorem mk_wcwidth_wide :
  (forall c, in_table c wide ->
     (~ in_table c combining -> mk_wcwidth c = 2) /\
     (in_table c combining -> mk_wcwidth c = 0)) /\
  (forall c, 0x4E00 <= c <= 0xA48C \/ 0xAC00 <= c <= 0xD7A3 ->
     mk_wcwidth c = 2).
Proof.
  assert (Hgen : forall c, in_table c wide ->
     (~ in_table c combining -> mk_wcwidth c = 2) /\
     (in_table c combining -> mk_wcwidth c = 0)).
  { intros c Hwide. destruct (wide_above_jamo c Hwide) as [Hlow Hjamo].
    rewrite mk_wcwidth_high by lia. split; intros Hcomb.
    - rewrite (not_in_tableb _ _ Hcomb).
      apply in_tableb_spec in Hwide. rewrite Hwide.
      destruct (Z.ltb_spec c 0x1100); [lia |].
      destruct (Z.geb_spec c 0x1160); [| reflexivity].
      destruct (Z.leb_spec c 0x11FF); [lia | reflexivity].
    - apply in_tableb_spec in Hcomb. now rewrite Hcomb. }
  split; [exact Hgen |].
  intros c [Hc | Hc].
  - apply Hgen.
    + exists (IV 0x4e00 0xa48c). split; [| exact Hc].
      apply (nth_error_In wide 17). reflexivity.
    + apply (outside_range combining 0x4E00 0xA48C);
        [vm_compute; reflexivity | exact Hc].
  - apply Hgen.
    + exists (IV 0xac00 0xd7a3). split; [| exact Hc].
      apply (nth_error_In wide 20). reflexivity.
    + apply (outside_range combining 0xAC00 0xD7A3);
        [vm_compute; reflexivity | exact Hc].
Qed.

Lemma mk_wcwidth_wide_witness :
  in_table 0xFF01 wide /\ ~ in_table 0xFF01 combining /\
  mk_wcwidth 0xFF01 = 2 /\
  in_table 0x302A wide /\ in_table 0x302A combining /\
  mk_wcwidth 0x302A = 0 /\
  mk_wcwidth 0x4E2D = 2.
Proof.
  assert (H1 : in_table 0xFF01 wide)
    by (apply in_tableb_spec; vm_compute; reflexivity).
  assert (H2 : ~ in_table 0xFF01 combining)
    by (rewrite <- in_tableb_spec; vm_compute; discriminate).
  assert (H3 : in_table 0x302A wide)
    by (apply in_tableb_spec; vm_compute; reflexivity).
  assert (H4 : in_table 0x302A combining)
    by (apply in_tableb_spec; vm_compute; reflexivity).
  destruct mk_wcwidth_wide as [Hgen Hcjk].
  split; [exact H1 | split; [exact H2 | split]].
  - exact (proj1 (Hgen 0xFF01 H1) H2).
  - split; [exact H3 | split; [exact H4 | split]].
    + exact (proj2 (Hgen 0x302A H3) H4).
    + apply Hcjk. lia.
Defined.

(** C5, as the claim states it, fails: the soft hyphen [0x00AD] is the
    first interval of [combining], but the fast path gives every code
    point below [0x300] its width before the table is searched, and the
    soft hyphen has width 1. *)
Lemma combining_member_of_width_1 :
  code_point 0x00AD /\ in_table 0x00AD combining /\
  mk_wcwidth 0x00AD = 1 /\ mk_wcwidth 0x00AD <> 0.
Proof.
  split; [unfold code_point; lia |].
  split; [apply in_tableb_spec; vm_compute; reflexivity |].
  assert (H : mk_wcwidth 0x00AD = 1) by (vm_compute; reflexivity).
  split; [exact H | rewrite H; discriminate].
Qed.

(** C5 (amended): every code point [c] other than the soft hyphen [0x00AD]
    that lies in some interval of [combining] has width 0; the range
    [0x0300 .. 0x036F] is an instance. *)
Theorem mk_wcwidth_combining :
  (forall c, in_table c combining -> c <> 0x00AD -> mk_wcwidth c = 0) /\
  (forall c, 0x0300 <= c <= 0x036F -> mk_wcwidth c = 0).
Proof.
  assert (Hgen : forall c, in_table c combining -> c <> 0x00AD ->
                           mk_wcwidth c = 0).
  { intros c Hcomb Hne.
    destruct (combining_soft_hyphen_or_high c Hcomb) as [Heq | Hhigh];
      [easy |].
    rewrite mk_wcwidth_high by lia.
    apply in_tableb_spec in Hcomb. now rewrite Hcomb. }
  split; [exact Hgen |].
  intros c Hc. apply Hgen; [| lia].
  exists (IV 0x0300 0x036f). split; [| exact Hc].
  apply (nth_error_In combining 1). reflexivity.
Qed.

Lemma mk_wcwidth_combining_witness :
  in_table 0x200B combining /\ 0x200B <> 0x00AD /\ mk_wcwidth 0x200B = 0 /\
  mk_wcwidth 0x0301 = 0.
Proof.
  assert (H1 : in_table 0x200B combining)
    by (apply in_tableb_spec; vm_compute; reflexivity).
  assert (H2 : 0x200B <> 0x00AD) by discriminate.
  destruct mk_wcwidth_combining as [Hgen Hacc].
  split; [exact H1 | split; [exact H2 | split]].
  - exact (Hgen 0x200B H1 H2).
  - apply Hacc. lia.
Defined.

(** ** The legacy-encoding classifier [mk_wcwidth_cjk] *)

(** C7: for every code point [c], [mk_wcwidth_cjk c] is 2 when
    [mk_wcwidth c] is 1 and [c] lies in the half-open range
    [0x00A1 .. 0xFF61) and is not [0x20A9]; in every other case
    [mk_wcwidth_cjk c] is [mk_wcwidth c]; and [mk_wcwidth_cjk 0x20A9] is 1. *)
Theorem mk_wcwidth_cjk_spec (c : Z) :
  (mk_wcwidth c = 1 /\ 0x00A1 <= c < 0xFF61 /\ c <> 0x20A9 ->
   mk_wcwidth_cjk c = 2) /\
  (~ (mk_wcwidth c = 1 /\ 0x00A1 <= c < 0xFF61 /\ c <> 0x20A9) ->
   mk_wcwidth_cjk c = mk_wcwidth c) /\
  mk_wcwidth_cjk 0x20A9 = 1.
Proof.
  unfold mk_wcwidth_cjk at 1 2. cbv zeta.
  destruct (Z.eqb_spec (mk_wcwidth c) 1) as [Hw | Hw];
    destruct (Z.geb_spec c 0x00A1) as [Hlo | Hlo];
    destruct (Z.ltb_spec c 0xFF61) as [Hhi | Hhi];
    destruct (Z.eqb_spec c 0x20A9) as [Hwon | Hwon]; simpl;
    (split; [| split; [| vm_compute; reflexivity]]);
    intros H; try reflexivity; try lia; try tauto.
Qed.

Lemma mk_wcwidth_cjk_spec_witness :
  mk_wcwidth_cjk 0x00A7 = 2 /\ mk_wcwidth_cjk 0x4E2D = mk_wcwidth 0x4E2D.
Proof.
  split.
  - apply (proj1 (mk_wcwidth_cjk_spec 0x00A7)).
    split; [vm_compute; reflexivity | lia].
  - apply (proj1 (proj2 (mk_wcwidth_cjk_spec 0x4E2D))).
    intros [H _]. vm_compute in H. discriminate.
Defined.

(** ** The sequence functions [mk_wcswidth] and [mk_wcswidth_cjk] *)

Lemma int_wrap_small x : INT_MIN <= x <= INT_MAX -> int_wrap x = x.
Proof.
  unfold int_wrap, INT_MIN, INT_MAX. intros H.
  rewrite Z.mod_small by lia. lia.
Qed.

Lemma int_wrap_range x : INT_MIN <= int_wrap x <= INT_MAX.
Proof.
  unfold int_wrap, INT_MIN, INT_MAX.
  pose proof (Z.mod_pos_bound (x - - 2 ^ 31) (2 ^ 32) ltac:(lia)). lia.
Qed.

Lemma int_wrap_add_l a b : int_wrap (int_wrap a + b) = int_wrap (a + b).
Proof.
  unfold int_wrap. f_equal.
  replace ((a - INT_MIN) mod 2 ^ 32 + INT_MIN + b - INT_MIN)
    with ((a - INT_MIN) mod 2 ^ 32 + b) by lia.
  rewrite Zplus_mod_idemp_l. f_equal. lia.
Qed.

Lemma mk_wcswidth_loop_eq pwcs i n width :
  mk_wcswidth_loop pwcs i n width = width_loop mk_wcwidth pwcs i n width.
Proof.
  revert i width. induction n as [|n IH]; intros i width; simpl.
  - reflexivity.
  - now rewrite IH.
Qed.

Lemma mk_wcswidth_cjk_loop_eq pwcs i n width :
  mk_wcswidth_cjk_loop pwcs i n width = width_loop mk_wcwidth_cjk pwcs i n width.
Proof.
  revert i width. induction n as [|n IH]; intros i width; simpl.
  - reflexivity.
  - now rewrite IH.
Qed.

Lemma mk_wcswidth_eq pwcs n :
  mk_wcswidth pwcs n = width_loop mk_wcwidth pwcs 0 n 0.
Proof. unfold mk_wcswidth. apply mk_wcswidth_loop_eq. Qed.

Lemma mk_wcswidth_cjk_eq pwcs n :
  mk_wcswidth_cjk pwcs n = width_loop mk_wcwidth_cjk pwcs 0 n 0.
Proof. unfold mk_wcswidth_cjk. apply mk_wcswidth_cjk_loop_eq. Qed.

Lemma mk_wcwidth_range' c : mk_wcwidth c = -1 \/ 0 <= mk_wcwidth c.
Proof. pose proof (mk_wcwidth_range c). lia. Qed.

Lemma mk_wcwidth_range2 c : mk_wcwidth c = -1 \/ 0 <= mk_wcwidth c <= 2.
Proof. pose proof (mk_wcwidth_range c). lia. Qed.

Lemma mk_wcwidth_cjk_range2 c :
  mk_wcwidth_cjk c = -1 \/ 0 <= mk_wcwidth_cjk c <= 2.
Proof.
  unfold mk_wcwidth_cjk. cbv zeta.
  destruct ((mk_wcwidth c =? 1) && (c >=? 0x00A1) && (c <? 0xFF61)
            && negb (c =? 0x20A9)); [lia |].
  pose proof (mk_wcwidth_range c). lia.
Qed.

Lemma mk_wcwidth_cjk_range ucs :
  mk_wcwidth_cjk ucs = -1 \/ 0 <= mk_wcwidth_cjk ucs.
Proof. pose proof (mk_wcwidth_cjk_range2 ucs). lia. Qed.

Section Traversal.

Variable pwcs : buffer.

Lemma consumed_le i n : (consumed pwcs i n <= n)%nat.
Proof.
  revert i. induction n as [|n IH]; intros i; simpl; [lia |].
  destruct (pwcs i =? 0); [lia |]. specialize (IH (S i)). lia.
Qed.

Lemma consumed_nonzero i n j :
  (j < consumed pwcs i n)%nat -> pwcs (i + j)%nat <> 0.
Proof.
  revert i j. induction n as [|n IH]; intros i j; simpl; [lia |].
  destruct (Z.eqb_spec (pwcs i) 0) as [Hz | Hnz]; [lia |].
  destruct j as [|j]; intros Hj.
  - now rewrite Nat.add_0_r.
  - replace (i + S j)%nat with (S i + j)%nat by lia. apply IH. lia.
Qed.

Lemma consumed_zero i n :
  (consumed pwcs i n < n)%nat -> pwcs (i + consumed pwcs i n)%nat = 0.
Proof.
  revert i. induction n as [|n IH]; intros i; simpl; [lia |].
  destruct (Z.eqb_spec (pwcs i) 0) as [Hz | Hnz]; intros Hk.
  - now rewrite Nat.add_0_r.
  - replace (i + S (consumed pwcs (S i) n))%nat
      with (S i + consumed pwcs (S i) n)%nat by lia.
    apply IH. lia.
Qed.

Lemma stops_at_consumed n : stops_at pwcs n (consumed pwcs 0 n).
Proof.
  split; [apply consumed_le | split].
  - intros j Hj. apply (consumed_nonzero 0 n j Hj).
  - intros Hk. apply (consumed_zero 0 n Hk).
Qed.

Lemma stops_at_unique n k : stops_at pwcs n k -> k = consumed pwcs 0 n.
Proof.
  intros [Hle [Hnz Hz]].
  destruct (stops_at_consumed n) as [Hle' [Hnz' Hz']].
  destruct (lt_eq_lt_dec k (consumed pwcs 0 n)) as [[Hlt | Heq] | Hgt].
  - exfalso. apply (Hnz' k Hlt). apply Hz. lia.
  - exact Heq.
  - exfalso. apply (Hnz _ Hgt). apply Hz'. lia.
Qed.

End Traversal.

Section Accumulator.

Variable wc : Z -> Z.
Hypothesis wc_range : forall c, wc c = -1 \/ 0 <= wc c <= 2.

(** One non-printable element among those consumed: the result is -1. *)
Lemma width_loop_fails pwcs i n width :
  (exists j, (j < consumed pwcs i n)%nat /\ wc (pwcs (i + j)%nat) = -1) ->
  width_loop wc pwcs i n width = -1.
Proof.
  revert i width. induction n as [|n IH]; intros i width [j [Hj Hw]];
    simpl in *; [lia |].
  destruct (pwcs i =? 0); [lia |].
  destruct (Z.ltb_spec (wc (pwcs i)) 0) as [Hneg | Hpos]; [reflexivity |].
  destruct j as [|j].
  - rewrite Nat.add_0_r in Hw. lia.
  - apply IH. exists j. split; [lia |].
    now replace (S i + j)%nat with (i + S j)%nat by lia.
Qed.

(** The sum of [k] printable widths lies between 0 and [2 * k]. *)
Lemma sum_widths_bounds pwcs i k :
  (forall j, (j < k)%nat -> wc (pwcs (i + j)%nat) <> -1) ->
  0 <= sum_widths wc pwcs i k <= 2 * Z.of_nat k.
Proof.
  revert i. induction k as [|k IH]; intros i Hall; simpl sum_widths; [lia |].
  assert (H0 : wc (pwcs i) <> -1).
  { specialize (Hall 0%nat ltac:(lia)). now rewrite Nat.add_0_r in Hall. }
  assert (0 <= sum_widths wc pwcs (S i) k <= 2 * Z.of_nat k).
  { apply IH. intros j Hj. specialize (Hall (S j) ltac:(lia)).
    now replace (S i + j)%nat with (i + S j)%nat by lia. }
  destruct (wc_range (pwcs i)); lia.
Qed.

(** No non-printable element among those consumed, and a sum that stays
    in the range of [int]: the result is the sum of their widths. *)
Lemma width_loop_sums pwcs i n width :
  (forall j, (j < consumed pwcs i n)%nat -> wc (pwcs (i + j)%nat) <> -1) ->
  0 <= width ->
  width + sum_widths wc pwcs i (consumed pwcs i n) <= INT_MAX ->
  width_loop wc pwcs i n width =
  width + sum_widths wc pwcs i (consumed pwcs i n).
Proof.
  revert i width.
  induction n as [|n IH]; intros i width Hall Hw Hmax;
    cbn [width_loop consumed sum_widths] in *.
  - destruct (pwcs i =? 0); lia.
  - destruct (pwcs i =? 0); [cbn [sum_widths]; lia |].
    cbn [sum_widths] in *.
    assert (H0 : wc (pwcs i) <> -1).
    { specialize (Hall 0%nat ltac:(lia)). now rewrite Nat.add_0_r in Hall. }
    assert (Hrest : forall j, (j < consumed pwcs (S i) n)%nat ->
                      wc (pwcs (S i + j)%nat) <> -1).
    { intros j Hj. specialize (Hall (S j) ltac:(lia)).
      now replace (S i + j)%nat with (i + S j)%nat by lia. }
    pose proof (sum_widths_bounds pwcs (S i) _ Hrest) as Hs.
    destruct (Z.ltb_spec (wc (pwcs i)) 0) as [Hneg | Hpos];
      [destruct (wc_range (pwcs i)); lia |].
    rewrite int_wrap_small by (unfold INT_MIN, INT_MAX in *; lia).
    rewrite IH by (assumption || lia). lia.
Qed.

(** Two buffers that agree on what either traversal consumes give the
    same result. *)
Lemma width_loop_agree a b i n width :
  (forall j, (j < consumed a i n)%nat \/ (j < consumed b i n)%nat ->
             a (i + j)%nat = b (i + j)%nat) ->
  width_loop wc a i n width = width_loop wc b i n width.
Proof.
  revert i width. induction n as [|n IH]; intros i width Hagree; simpl in *.
  - destruct (a i =? 0), (b i =? 0); reflexivity.
  - destruct (Z.eqb_spec (a i) 0) as [Ha | Ha];
      destruct (Z.eqb_spec (b i) 0) as [Hb | Hb].
    + reflexivity.
    + specialize (Hagree 0%nat ltac:(lia)).
      rewrite Nat.add_0_r in Hagree. congruence.
    + specialize (Hagree 0%nat ltac:(lia)).
      rewrite Nat.add_0_r in Hagree. congruence.
    + assert (Hi : a i = b i).
      { specialize (Hagree 0%nat ltac:(lia)).
        now rewrite Nat.add_0_r in Hagree. }
      rewrite Hi. destruct (wc (b i) <? 0); [reflexivity |].
      apply IH. intros j Hj.
      replace (S i + j)%nat with (i + S j)%nat by lia.
      apply Hagree. lia.
Qed.

Lemma width_loop_limit_0 pwcs i width :
  width_loop wc pwcs i 0 width = width.
Proof. simpl. now destruct (pwcs i =? 0). Qed.

(** Among the first [k] elements from offset [i], either one is
    non-printable or none is. *)
Lemma bad_or_good (pwcs : buffer) i k :
  (exists j, (j < k)%nat /\ wc (pwcs (i + j)%nat) = -1) \/
  (forall j, (j < k)%nat -> wc (pwcs (i + j)%nat) <> -1).
Proof.
  induction k as [|k IH].
  - right. intros j Hj. lia.
  - destruct IH as [[j [Hj Hbad]] | Hgood].
    + left. exists j. split; [lia | exact Hbad].
    + destruct (Z.eq_dec (wc (pwcs (i + k)%nat)) (-1)) as [Hk | Hk].
      * left. exists k. split; [lia | exact Hk].
      * right. intros j Hj.
        destruct (Nat.eq_dec j k) as [-> | Hne]; [exact Hk |].
        apply Hgood. lia.
Qed.

(** The two outcomes of the loop when twice the limit fits an [int]. *)
Lemma width_loop_cases pwcs i n width :
  0 <= width -> width + 2 * Z.of_nat n <= INT_MAX ->
  ((exists j, (j < consumed pwcs i n)%nat /\ wc (pwcs (i + j)%nat) = -1) /\
   width_loop wc pwcs i n width = -1) \/
  ((forall j, (j < consumed pwcs i n)%nat -> wc (pwcs (i + j)%nat) <> -1) /\
   width_loop wc pwcs i n width =
     width + sum_widths wc pwcs i (consumed pwcs i n) /\
   0 <= sum_widths wc pwcs i (consumed pwcs i n) <= 2 * Z.of_nat n).
Proof.
  intros Hw Hmax.
  destruct (bad_or_good pwcs i (consumed pwcs i n)) as [Hbad | Hgood].
  - left. split; [exact Hbad | now apply width_loop_fails].
  - pose proof (sum_widths_bounds pwcs i _ Hgood).
    pose proof (consumed_le pwcs i n).
    right. split; [exact Hgood | split; [| lia]].
    apply width_loop_sums; [exact Hgood | exact Hw | lia].
Qed.

(** The width accumulated so far is added to what the rest contributes. *)
Lemma width_loop_accumulator pwcs i n width :
  0 <= width -> width + 2 * Z.of_nat n <= INT_MAX ->
  width_loop wc pwcs i n width =
    if width_loop wc pwcs i n 0 =? -1 then -1
    else width + width_loop wc pwcs i n 0.
Proof.
  intros Hw Hmax.
  destruct (width_loop_cases pwcs i n width Hw Hmax)
    as [[Hbad Hr] | [Hgood [Hr Hs]]].
  - rewrite Hr. now rewrite (width_loop_fails pwcs i n 0 Hbad).
  - rewrite Hr.
    rewrite (width_loop_sums pwcs i n 0 Hgood) by lia.
    destruct (Z.eqb_spec (0 + sum_widths wc pwcs i (consumed pwcs i n)) (-1));
      lia.
Qed.

(** The loop only looks at the buffer relative to its offset. *)
Lemma width_loop_shift (a b : buffer) i i' n width :
  (forall j, a (i + j)%nat = b (i' + j)%nat) ->
  width_loop wc a i n width = width_loop wc b i' n width.
Proof.
  revert i i' width. induction n as [|n IH]; intros i i' width Hab; simpl.
  - pose proof (Hab 0%nat) as H0. rewrite !Nat.add_0_r in H0. now rewrite H0.
  - pose proof (Hab 0%nat) as H0. rewrite !Nat.add_0_r in H0. rewrite H0.
    destruct (b i' =? 0); [reflexivity |].
    destruct (wc (b i') <? 0); [reflexivity |].
    apply IH. intros j. specialize (Hab (S j)).
    now replace (S i + j)%nat with (i + S j)%nat by lia;
      replace (S i' + j)%nat with (i' + S j)%nat by lia.
Qed.

(** Past printable, non-zero elements the loop goes on with their sum. *)
Lemma width_loop_split pwcs i m n width :
  (forall j, (j < m)%nat ->
     pwcs (i + j)%nat <> 0 /\ wc (pwcs (i + j)%nat) <> -1) ->
  0 <= width -> width + 2 * Z.of_nat m <= INT_MAX ->
  width_loop wc pwcs i (m + n) width =
  width_loop wc pwcs (i + m) n (width + sum_widths wc pwcs i m).
Proof.
  revert i width. induction m as [|m IH]; intros i width Hall Hw Hmax.
  - simpl. now rewrite Nat.add_0_r, Z.add_0_r.
  - destruct (Hall 0%nat ltac:(lia)) as [Hnz Hpr].
    rewrite Nat.add_0_r in Hnz, Hpr.
    change (S m + n)%nat with (S (m + n)).
    cbn [width_loop sum_widths].
    destruct (Z.eqb_spec (pwcs i) 0); [contradiction |].
    destruct (Z.ltb_spec (wc (pwcs i)) 0);
      [destruct (wc_range (pwcs i)); lia |].
    assert (0 <= wc (pwcs i) <= 2) by (destruct (wc_range (pwcs i)); lia).
    rewrite int_wrap_small by (unfold INT_MIN, INT_MAX in *; lia).
    rewrite IH.
    + replace (S i + m)%nat with (i + S m)%nat by lia.
      now rewrite Z.add_assoc.
    + intros j Hj. specialize (Hall (S j) ltac:(lia)).
      now replace (S i + j)%nat with (i + S j)%nat by lia.
    + lia.
    + lia.
Qed.

(** Once the zero element is within the limit, the limit does not count. *)
Lemma width_loop_past_zero pwcs i k n width :
  pwcs (i + k)%nat = 0 ->
  (k <= n)%nat ->
  width_loop wc pwcs i n width = width_loop wc pwcs i k width.
Proof.
  revert i n width. induction k as [|k IH]; intros i n width Hz Hn.
  - rewrite Nat.add_0_r in Hz.
    destruct n; simpl; rewrite Hz; reflexivity.
  - destruct n as [|n]; [lia |]. simpl.
    destruct (pwcs i =? 0); [reflexivity |].
    destruct (wc (pwcs i) <? 0); [reflexivity |].
    apply IH; [| lia].
    now replace (S i + k)%nat with (i + S k)%nat by lia.
Qed.

(** On a buffer that holds one printable code point [c] everywhere, the
    result is the wrapped product of the limit and the width of [c]. *)
Lemma width_loop_constant pwcs c :
  (forall j, pwcs j = c) -> c <> 0 -> 0 <= wc c ->
  forall n i width,
  INT_MIN <= width <= INT_MAX ->
  width_loop wc pwcs i n width = int_wrap (width + Z.of_nat n * wc c).
Proof.
  intros Hc Hnz Hpos.
  induction n as [|n IH]; intros i width Hw; cbn [width_loop].
  - rewrite Hc. destruct (c =? 0);
      (rewrite int_wrap_small by lia; lia).
  - rewrite Hc. destruct (Z.eqb_spec c 0); [contradiction |].
    destruct (Z.ltb_spec (wc c) 0); [lia |].
    rewrite IH by apply int_wrap_range.
    rewrite int_wrap_add_l. f_equal. lia.
Qed.

End Accumulator.

Lemma stops_at_constant (c : Z) (n : nat) :
  c <> 0 -> stops_at (fun _ => c) n n.
Proof.
  intros Hc. split; [apply Nat.le_refl | split].
  - intros j _. exact Hc.
  - intros H. exfalso. exact (Nat.lt_irrefl n H).
Qed.

Lemma mk_wcswidth_constant (n : nat) :
  mk_wcswidth (fun _ => 0x41) n = int_wrap (Z.of_nat n).
Proof.
  rewrite mk_wcswidth_eq.
  rewrite (width_loop_constant mk_wcwidth (fun _ => 0x41) 0x41)
    by (try reflexivity; try discriminate; unfold INT_MIN, INT_MAX; lia).
  f_equal. change (mk_wcwidth 0x41) with 1. lia.
Qed.

(** C2, as the claim states it, fails for limits from [2^30] on, where the
    sum of the widths can leave the range of the [int] that holds it: the
    width of [2^31] letters [0x41], none of them non-printable, is not
    their sum [2^31] but the negative number [-2147483648]. *)
Lemma mk_wcswidth_sum_overflows :
  stops_at (fun _ => 0x41) (Z.to_nat (2 ^ 31)) (Z.to_nat (2 ^ 31)) /\
  (forall j, (j < Z.to_nat (2 ^ 31))%nat ->
             mk_wcwidth ((fun _ : nat => 0x41) j) <> -1) /\
  mk_wcswidth (fun _ => 0x41) (Z.to_nat (2 ^ 31)) = -2147483648 /\
  ~ 0 <= mk_wcswidth (fun _ => 0x41) (Z.to_nat (2 ^ 31)).
Proof.
  assert (H : mk_wcswidth (fun _ => 0x41) (Z.to_nat (2 ^ 31)) = -2147483648).
  { rewrite mk_wcswidth_constant.
    rewrite Z2Nat.id by discriminate. reflexivity. }
  split; [apply stops_at_constant; discriminate |].
  split; [intros j _; discriminate |].
  split; [exact H |].
  rewrite H. intros Hle. apply Hle. reflexivity.
Qed.

(** C2 (amended): for every sequence of code points and every limit [n],
    [mk_wcswidth] traverses the elements up to the first zero element or
    until [n] elements are consumed, whichever comes first (position [k]);
    if some traversed element has width -1 the result is -1, with no
    partial sum; otherwise the sum of the widths of the traversed
    elements lies between 0 and [2 * n], and the result is that sum
    provided the sum is at most [INT_MAX], which it is for every limit
    below [2^30].  In particular the width of [0x41, 0x07, 0x42] with
    limit 3 is -1, and the width of [0x41, 0] with limit 5 is 1, whatever
    follows them in memory. *)
Theorem mk_wcswidth_spec :
  (forall (pwcs : buffer) (n : nat),
     (exists k, stops_at pwcs n k) /\
     (forall k, stops_at pwcs n k ->
        ((exists j, (j < k)%nat /\ mk_wcwidth (pwcs j) = -1) ->
         mk_wcswidth pwcs n = -1) /\
        ((forall j, (j < k)%nat -> mk_wcwidth (pwcs j) <> -1) ->
         0 <= sum_widths mk_wcwidth pwcs 0 k <= 2 * Z.of_nat n /\
         (Z.of_nat n < 2 ^ 30 ->
          sum_widths mk_wcwidth pwcs 0 k <= INT_MAX) /\
         (sum_widths mk_wcwidth pwcs 0 k <= INT_MAX ->
          mk_wcswidth pwcs n = sum_widths mk_wcwidth pwcs 0 k /\
          0 <= mk_wcswidth pwcs n)))) /\
  (forall rest, mk_wcswidth (cells [0x41; 0x07; 0x42] rest) 3 = -1) /\
  (forall rest, mk_wcswidth (cells [0x41; 0] rest) 5 = 1).
Proof.
  split; [| split; intros rest; reflexivity].
  intros pwcs n. split.
  - exists (consumed pwcs 0 n). apply stops_at_consumed.
  - intros k Hk. apply stops_at_unique in Hk. subst k.
    rewrite mk_wcswidth_eq. split.
    + intros Hbad. apply width_loop_fails. exact Hbad.
    + intros Hall.
      pose proof (sum_widths_bounds mk_wcwidth mk_wcwidth_range2 pwcs 0 _ Hall)
        as Hsum.
      pose proof (consumed_le pwcs 0 n) as Hle.
      split; [lia | split].
      * intros Hn. unfold INT_MAX. lia.
      * intros Hmax.
        rewrite (width_loop_sums mk_wcwidth mk_wcwidth_range2 pwcs 0 n 0 Hall)
          by lia.
        lia.
Qed.

Lemma mk_wcswidth_spec_witness :
  stops_at (cells [0x41; 0x4E2D; 0; 0x07] (fun _ => 0)) 5 2 /\
  mk_wcswidth (cells [0x41; 0x4E2D; 0; 0x07] (fun _ => 0)) 5 = 3 /\
  stops_at (cells [0x41; 0x07; 0x42] (fun _ => 0x43)) 3 3 /\
  mk_wcswidth (cells [0x41; 0x07; 0x42] (fun _ => 0x43)) 3 = -1.
Proof.
  assert (H1 : stops_at (cells [0x41; 0x4E2D; 0; 0x07] (fun _ => 0)) 5 2).
  { split; [lia | split].
    - intros [|[|j]] Hj; [discriminate | discriminate | lia].
    - intros _. reflexivity. }
  assert (H2 : stops_at (cells [0x41; 0x07; 0x42] (fun _ => 0x43)) 3 3).
  { split; [lia | split].
    - intros [|[|[|j]]] Hj; [discriminate | discriminate | discriminate | lia].
    - lia. }
  destruct mk_wcswidth_spec as [Hgen _].
  split; [exact H1 | split; [| split; [exact H2 |]]].
  - destruct (proj2 (proj2 (Hgen _ 5%nat) 2%nat H1)) as [_ [_ Hsum]].
    + intros [|[|j]] Hj; [vm_compute; discriminate | vm_compute; discriminate | lia].
    + destruct Hsum as [Hsum _]; [vm_compute; discriminate |].
      rewrite Hsum. vm_compute. reflexivity.
  - apply (proj1 (proj2 (Hgen _ 3%nat) 3%nat H2)).
    exists 1%nat. split; [lia | vm_compute; reflexivity].
Defined.

Lemma stops_at_update pwcs n k p c :
  stops_at pwcs n k -> (k < p)%nat \/ (n <= p)%nat ->
  stops_at (update pwcs p c) n k.
Proof.
  intros [Hle [Hnz Hz]] Hp. unfold update. split; [exact Hle | split].
  - intros j Hj. destruct (Nat.eqb_spec j p); [lia | now apply Hnz].
  - intros Hk. destruct (Nat.eqb_spec k p); [lia | now apply Hz].
Qed.

(** C10: the result of [mk_wcswidth] and of [mk_wcswidth_cjk] depends only
    on the traversed prefix: two sequences that agree on every position
    before the point where either traversal stops (the limit [n] or the
    first zero element, whichever comes first) have equal results.  In
    particular a code point, non-printable or not, written after the
    first zero element or at a position from [n] on leaves the result as
    it is, so it is not what makes a result -1; and with limit 0 the
    result is 0 for every sequence. *)
Theorem wcswidth_depends_on_prefix :
  (forall (a b : buffer) (n ka kb : nat),
     stops_at a n ka -> stops_at b n kb ->
     (forall j, (j < ka)%nat \/ (j < kb)%nat -> a j = b j) ->
     mk_wcswidth a n = mk_wcswidth b n /\
     mk_wcswidth_cjk a n = mk_wcswidth_cjk b n) /\
  (forall (pwcs : buffer) (n k p : nat) (c : Z),
     stops_at pwcs n k ->
     (k < p)%nat \/ (n <= p)%nat ->
     mk_wcswidth (update pwcs p c) n = mk_wcswidth pwcs n /\
     mk_wcswidth_cjk (update pwcs p c) n = mk_wcswidth_cjk pwcs n) /\
  (forall pwcs : buffer,
     mk_wcswidth pwcs 0 = 0 /\ mk_wcswidth_cjk pwcs 0 = 0).
Proof.
  assert (Hprefix : forall (a b : buffer) (n ka kb : nat),
     stops_at a n ka -> stops_at b n kb ->
     (forall j, (j < ka)%nat \/ (j < kb)%nat -> a j = b j) ->
     mk_wcswidth a n = mk_wcswidth b n /\
     mk_wcswidth_cjk a n = mk_wcswidth_cjk b n).
  { intros a b n ka kb Ha Hb Hagree.
    apply stops_at_unique in Ha, Hb. subst ka kb.
    rewrite !mk_wcswidth_eq, !mk_wcswidth_cjk_eq.
    split; apply width_loop_agree; exact Hagree. }
  split; [exact Hprefix | split].
  - intros pwcs n k p c Hk Hp.
    apply (Hprefix (update pwcs p c) pwcs n k k).
    + now apply stops_at_update.
    + exact Hk.
    + intros j Hj. unfold update.
      destruct (Nat.eqb_spec j p); [| reflexivity].
      destruct Hk as [Hle _]. lia.
  - intros pwcs. rewrite mk_wcswidth_eq, mk_wcswidth_cjk_eq.
    split; apply width_loop_limit_0.
Qed.

Lemma wcswidth_depends_on_prefix_witness :
  mk_wcswidth (cells [0x41; 0; 0x07] (fun _ => 0)) 5 =
  mk_wcswidth (cells [0x41; 0; 0x42] (fun _ => 7)) 5 /\
  mk_wcswidth_cjk (cells [0x41; 0; 0x07] (fun _ => 0)) 5 =
  mk_wcswidth_cjk (cells [0x41; 0; 0x42] (fun _ => 7)) 5 /\
  mk_wcswidth (update (cells [0x41; 0x42; 0x43] (fun _ => 0)) 2 0x07) 2 =
  mk_wcswidth (cells [0x41; 0x42; 0x43] (fun _ => 0)) 2.
Proof.
  destruct wcswidth_depends_on_prefix as [Hagree [Hupd _]].
  assert (Ha : stops_at (cells [0x41; 0; 0x07] (fun _ => 0)) 5 1).
  { split; [lia | split].
    - intros [|j] Hj; [discriminate | lia].
    - intros _. reflexivity. }
  assert (Hb : stops_at (cells [0x41; 0; 0x42] (fun _ => 7)) 5 1).
  { split; [lia | split].
    - intros [|j] Hj; [discriminate | lia].
    - intros _. reflexivity. }
  assert (Hc : stops_at (cells [0x41; 0x42; 0x43] (fun _ => 0)) 2 2).
  { split; [lia | split].
    - intros [|[|j]] Hj; [discriminate | discriminate | lia].
    - lia. }
  assert (Hab : forall j, (j < 1)%nat \/ (j < 1)%nat ->
                cells [0x41; 0; 0x07] (fun _ => 0) j =
                cells [0x41; 0; 0x42] (fun _ => 7) j).
  { intros [|j] Hj; [reflexivity | lia]. }
  split; [exact (proj1 (Hagree _ _ 5%nat 1%nat 1%nat Ha Hb Hab)) |].
  split; [exact (proj2 (Hagree _ _ 5%nat 1%nat 1%nat Ha Hb Hab)) |].
  apply (proj1 (Hupd _ 2%nat 2%nat 2%nat 0x07 Hc (or_intror (Nat.le_refl 2)))).
Defined.

(** * Further properties *)

(** ** [bisearch] on arbitrary tables *)

(** One turn of the loop of [bisearch]. *)
Lemma bisearch_loop_step ucs table lo hi :
  bisearch_loop ucs table lo hi =
    if hi >=? lo then
      if ucs >? last (entry table (midpoint lo hi))
      then bisearch_loop ucs table (midpoint lo hi + 1) hi
      else if ucs <? first (entry table (midpoint lo hi))
           then bisearch_loop ucs table lo (midpoint lo hi - 1)
           else true
    else false.
Proof.
  funelim (bisearch_loop ucs table lo hi);
    destruct (Z.geb_spec hi lo); try lia; try reflexivity;
    destruct (Z.gtb_spec ucs (last (entry table (midpoint lo hi))));
    try lia; try reflexivity;
    destruct (Z.ltb_spec ucs (first (entry table (midpoint lo hi))));
    try lia; reflexivity.
Qed.

Lemma entry_checked_in_bounds table i :
  0 <= i < Z.of_nat (length table) ->
  entry_checked table i = Some (entry table i).
Proof.
  intros Hi. unfold entry_checked, entry.
  destruct (Z.ltb_spec i 0); [lia |].
  apply nth_error_nth'. lia.
Qed.

(** One turn of the checked loop. *)
Lemma bisearch_loop_checked_step ucs table lo hi :
  bisearch_loop_checked ucs table lo hi =
    if hi >=? lo then
      if int_ok (lo + hi) then
        match entry_checked table (midpoint lo hi) with
        | None => None
        | Some iv =>
            if ucs >? last iv then
              if int_ok (midpoint lo hi + 1)
              then bisearch_loop_checked ucs table (midpoint lo hi + 1) hi
              else None
            else if ucs <? first iv then
              if int_ok (midpoint lo hi - 1)
              then bisearch_loop_checked ucs table lo (midpoint lo hi - 1)
              else None
            else Some true
        end
      else None
    else Some false.
Proof.
  funelim (bisearch_loop_checked ucs table lo hi);
    destruct (Z.geb_spec hi lo); try lia; try reflexivity;
    repeat match goal with
      | H : ?x = _ |- context [?x] => rewrite H
      end;
    try reflexivity;
    match goal with
    | |- context [ucs >? last ?iv] =>
        destruct (Z.gtb_spec ucs (last iv)); try lia; try reflexivity;
        destruct (Z.ltb_spec ucs (first iv)); try lia; reflexivity
    end.
Qed.

Lemma int_ok_small x : - 2 ^ 31 <= x <= 2 ^ 31 - 1 -> int_ok x = true.
Proof.
  intros H. unfold int_ok, INT_MIN, INT_MAX.
  apply andb_true_iff. split; apply Z.leb_le; lia.
Qed.

Lemma bisearch_loop_checked_ok ucs table (m : nat) :
  forall lo hi,
  (Z.to_nat (hi - lo + 1) <= m)%nat ->
  0 <= lo -> hi < Z.of_nat (length table) ->
  Z.of_nat (length table) <= 2 ^ 30 ->
  bisearch_loop_checked ucs table lo hi = Some (bisearch_loop ucs table lo hi).
Proof.
  induction m as [|m IH]; intros lo hi Hm Hlo Hhi Hlen;
    rewrite bisearch_loop_checked_step, bisearch_loop_step;
    destruct (Z.geb_spec hi lo); try lia; try reflexivity.
  destruct (mid_between lo hi ltac:(lia)) as [Hmid Hsum].
  rewrite int_ok_small by lia.
  rewrite entry_checked_in_bounds by lia.
  destruct (ucs >? last (entry table (midpoint lo hi))).
  - rewrite int_ok_small by lia. apply IH; lia.
  - destruct (ucs <? first (entry table (midpoint lo hi))); [| reflexivity].
    rewrite int_ok_small by lia. apply IH; lia.
Qed.

Lemma bisearch_checked_agrees ucs table max :
  0 <= max < Z.of_nat (length table) ->
  Z.of_nat (length table) <= 2 ^ 30 ->
  bisearch_checked ucs table max = Some (bisearch ucs table max).
Proof.
  intros Hmax Hlen. unfold bisearch_checked, bisearch.
  rewrite !entry_checked_in_bounds by lia.
  destruct (ucs <? first (entry table 0)); [reflexivity |].
  destruct (ucs >? last (entry table max)); [reflexivity |]. simpl.
  apply (bisearch_loop_checked_ok ucs table (Z.to_nat (max - 0 + 1))); lia.
Qed.

(** The table [stride_table n]. *)

Lemma stride_table_length n : length (stride_table n) = n.
Proof. unfold stride_table. now rewrite length_map, length_seq. Qed.

Lemma stride_table_nth n i d :
  (i < n)%nat ->
  nth i (stride_table n) d = IV (2 * Z.of_nat i) (2 * Z.of_nat i).
Proof.
  intros Hi. unfold stride_table.
  rewrite (nth_indep _ d (IV (2 * Z.of_nat 0) (2 * Z.of_nat 0)))
    by (now rewrite length_map, length_seq).
  rewrite (map_nth (fun i => IV (2 * Z.of_nat i) (2 * Z.of_nat i))).
  now rewrite seq_nth.
Qed.

Lemma stride_table_invariant n : table_invariant (stride_table n).
Proof.
  split.
  - intros iv Hin. unfold stride_table in Hin.
    apply in_map_iff in Hin as [i [<- _]]. cbn [first last]. lia.
  - intros i Hi. rewrite stride_table_length in Hi.
    rewrite !stride_table_nth by lia. cbn [first last]. lia.
Qed.

Lemma stride_table_entry_checked n i :
  0 <= i < Z.of_nat n ->
  entry_checked (stride_table n) i = Some (IV (2 * i) (2 * i)).
Proof.
  intros Hi.
  rewrite entry_checked_in_bounds by (rewrite stride_table_length; lia).
  unfold entry. rewrite stride_table_nth by lia.
  now rewrite Z2Nat.id by lia.
Qed.

(** On the table of [2^31 - 1] one-point intervals, the search for the
    member of the last interval computes [min + max] beyond [INT_MAX]. *)
Lemma stride_table_overflow n :
  Z.of_nat n = 2 ^ 31 - 1 ->
  stride_table n <> [] /\
  (exists iv, In iv (stride_table n) /\
              first iv <= 0xFFFFFFFC <= last iv) /\
  bisearch_checked 0xFFFFFFFC (stride_table n) (last_index (stride_table n))
  = None.
Proof.
  intros Hn. split; [| split].
  - intros Hnil. apply (f_equal (@length interval)) in Hnil.
    rewrite stride_table_length in Hnil. simpl in Hnil. lia.
  - exists (IV (2 * Z.of_nat (n - 1)) (2 * Z.of_nat (n - 1))). split.
    + unfold stride_table.
      apply (in_map (fun i => IV (2 * Z.of_nat i) (2 * Z.of_nat i))).
      apply in_seq. lia.
    + cbn [first last]. lia.
  - unfold last_index. rewrite stride_table_length, Hn.
    unfold bisearch_checked.
    rewrite !stride_table_entry_checked by lia.
    change (0xFFFFFFFC <? first (IV (2 * 0) (2 * 0))) with false.
    change (0xFFFFFFFC >?
            last (IV (2 * (2 ^ 31 - 1 - 1)) (2 * (2 ^ 31 - 1 - 1))))
      with false.
    cbv iota.
    rewrite bisearch_loop_checked_step.
    change (2 ^ 31 - 1 - 1 >=? 0) with true.
    change (int_ok (0 + (2 ^ 31 - 1 - 1))) with true.
    change (midpoint 0 (2 ^ 31 - 1 - 1)) with 1073741823.
    cbv iota.
    rewrite stride_table_entry_checked by lia.
    change (0xFFFFFFFC >? last (IV (2 * 1073741823) (2 * 1073741823)))
      with true.
    change (int_ok (1073741823 + 1)) with true.
    cbv iota.
    rewrite bisearch_loop_checked_step.
    change (2 ^ 31 - 1 - 1 >=? 1073741823 + 1) with true.
    change (int_ok (1073741823 + 1 + (2 ^ 31 - 1 - 1))) with false.
    reflexivity.
Qed.

(** C3, as the claim states it, fails for tables of more than [2^30]
    entries, where [min + max] can leave the range of [int]: on the table
    of the [2^31 - 1] one-point intervals [[0, 0]], [[2, 2]], ..., which
    is not empty and satisfies the invariant, the search for [0xFFFFFFFC],
    a member of the last interval, looks at [table[2^30 - 1]], sets [min]
    to [2^30] and then adds [min] and [max = 2^31 - 2]: the sum is not an
    [int], and no answer is computed from it. *)
Lemma bisearch_overflows_on_huge_table :
  stride_table (Z.to_nat (2 ^ 31 - 1)) <> [] /\
  table_invariant (stride_table (Z.to_nat (2 ^ 31 - 1))) /\
  (exists iv, In iv (stride_table (Z.to_nat (2 ^ 31 - 1))) /\
              first iv <= 0xFFFFFFFC <= last iv) /\
  bisearch_checked 0xFFFFFFFC (stride_table (Z.to_nat (2 ^ 31 - 1)))
    (last_index (stride_table (Z.to_nat (2 ^ 31 - 1)))) = None.
Proof.
  pose proof (stride_table_overflow (Z.to_nat (2 ^ 31 - 1))
                (Z2Nat.id (2 ^ 31 - 1) ltac:(discriminate))) as [H1 [H2 H3]].
  exact (conj H1 (conj (stride_table_invariant _) (conj H2 H3))).
Qed.

(** C3 (amended): for every code point and every non-empty interval table
    of at most [2^30] entries that satisfies the table invariant,
    [bisearch] (a total function: its loop is defined by recursion on the
    shrinking index range) returns true if and only if some interval
    [first, last] of the table satisfies [first <= ucs <= last]; and it
    computes this answer inside the range of [int] and inside the
    table. *)
Theorem bisearch_correct (ucs : Z) (table : list interval) :
  table <> [] ->
  table_invariant table ->
  Z.of_nat (length table) <= 2 ^ 30 ->
  (bisearch ucs table (last_index table) = true <->
   exists iv, In iv table /\ first iv <= ucs <= last iv) /\
  bisearch_checked ucs table (last_index table) =
  Some (bisearch ucs table (last_index table)).
Proof.
  intros Hne Hinv Hlen. split.
  - rewrite bisearch_in_tableb by assumption. apply in_tableb_spec.
  - apply bisearch_checked_agrees; [| exact Hlen].
    unfold last_index. destruct table; [congruence | simpl length; lia].
Qed.

Lemma bisearch_correct_witness :
  [IV 1 3; IV 5 9; IV 12 12] <> [] /\
  table_invariant [IV 1 3; IV 5 9; IV 12 12] /\
  Z.of_nat (length [IV 1 3; IV 5 9; IV 12 12]) <= 2 ^ 30 /\
  (bisearch 6 [IV 1 3; IV 5 9; IV 12 12]
     (last_index [IV 1 3; IV 5 9; IV 12 12]) = true <->
   exists iv, In iv [IV 1 3; IV 5 9; IV 12 12] /\ first iv <= 6 <= last iv) /\
  bisearch_checked 6 [IV 1 3; IV 5 9; IV 12 12]
    (last_index [IV 1 3; IV 5 9; IV 12 12]) =
  Some (bisearch 6 [IV 1 3; IV 5 9; IV 12 12]
          (last_index [IV 1 3; IV 5 9; IV 12 12])).
Proof.
  assert (Hne : [IV 1 3; IV 5 9; IV 12 12] <> []) by discriminate.
  assert (Hinv : table_invariant [IV 1 3; IV 5 9; IV 12 12])
    by (apply table_invariantb_spec; reflexivity).
  assert (Hlen : Z.of_nat (length [IV 1 3; IV 5 9; IV 12 12]) <= 2 ^ 30)
    by (vm_compute; discriminate).
  split; [exact Hne | split; [exact Hinv | split; [exact Hlen |]]].
  exact (bisearch_correct 6 [IV 1 3; IV 5 9; IV 12 12] Hne Hinv Hlen).
Defined.

(** X1: on a table of at most [2^30] entries, with [max] an index of the
    table, [bisearch] computes its answer without leaving the range of
    [int] and without reading outside the table, whatever the table
    holds. *)
Theorem bisearch_checked_ok (ucs : Z) (table : list interval) (max : Z) :
  0 <= max < Z.of_nat (length table) ->
  Z.of_nat (length table) <= 2 ^ 30 ->
  bisearch_checked ucs table max = Some (bisearch ucs table max).
Proof.
  intros Hmax Hlen. unfold bisearch_checked, bisearch.
  rewrite !entry_checked_in_bounds by lia.
  destruct (ucs <? first (entry table 0)); [reflexivity |].
  destruct (ucs >? last (entry table max)); [reflexivity |]. simpl.
  apply (bisearch_loop_checked_ok ucs table (Z.to_nat (max - 0 + 1))); lia.
Qed.

Lemma bisearch_checked_ok_witness :
  0 <= last_index combining < Z.of_nat (length combining) /\
  Z.of_nat (length combining) <= 2 ^ 30 /\
  bisearch_checked 0x20A9 combining (last_index combining) =
  Some (bisearch 0x20A9 combining (last_index combining)).
Proof.
  assert (H1 : 0 <= last_index combining < Z.of_nat (length combining))
    by (vm_compute; split; [discriminate | reflexivity]).
  assert (H2 : Z.of_nat (length combining) <= 2 ^ 30)
    by (vm_compute; discriminate).
  split; [exact H1 | split; [exact H2 |]].
  exact (bisearch_checked_ok 0x20A9 combining (last_index combining) H1 H2).
Defined.

Lemma midpoint_bounds lo hi :
  lo <= hi -> lo <= midpoint lo hi <= hi.
Proof.
  intros H. unfold midpoint.
  pose proof (Z.quot_le_lower_bound (lo + hi) 2 lo).
  pose proof (Z.quot_le_upper_bound (lo + hi) 2 hi). lia.
Qed.

(** A true answer of the loop names an entry that holds [ucs]. *)
Lemma bisearch_loop_true ucs table (m : nat) :
  forall lo hi,
  (Z.to_nat (hi - lo + 1) <= m)%nat ->
  bisearch_loop ucs table lo hi = true ->
  exists i, lo <= i <= hi /\ in_interval ucs (entry table i).
Proof.
  induction m as [|m IH]; intros lo hi Hm;
    rewrite bisearch_loop_step;
    destruct (Z.geb_spec hi lo); try lia; try discriminate.
  pose proof (midpoint_bounds lo hi ltac:(lia)) as Hmid.
  destruct (Z.gtb_spec ucs (last (entry table (midpoint lo hi)))).
  - intros Hb.
    destruct (IH (midpoint lo hi + 1) hi ltac:(lia) Hb) as [i [Hi Hin]].
    exists i. split; [lia | exact Hin].
  - destruct (Z.ltb_spec ucs (first (entry table (midpoint lo hi)))).
    + intros Hb.
      destruct (IH lo (midpoint lo hi - 1) ltac:(lia) Hb) as [i [Hi Hin]].
      exists i. split; [lia | exact Hin].
    + intros _. exists (midpoint lo hi). unfold in_interval. lia.
Qed.

(** X2: a true answer of [bisearch] is right on every table of at most
    [2^30] entries, sorted or not: if [bisearch ucs table max] is true,
    with [max] an index of the table, then the code computes that answer
    inside the range of [int] and inside the table, and some interval
    among [table[0 .. max]] holds [ucs].  (Only the answer false depends
    on the table invariant.) *)
Theorem bisearch_true_sound (ucs : Z) (table : list interval) (max : Z) :
  0 <= max < Z.of_nat (length table) ->
  Z.of_nat (length table) <= 2 ^ 30 ->
  bisearch ucs table max = true ->
  bisearch_checked ucs table max = Some true /\
  exists i, 0 <= i <= max /\ In (entry table i) table /\
            first (entry table i) <= ucs <= last (entry table i).
Proof.
  intros Hmax Hlen Hb. split.
  - rewrite (bisearch_checked_agrees ucs table max Hmax Hlen). now f_equal.
  - revert Hb. unfold bisearch.
    destruct ((ucs <? first (entry table 0))
              || (ucs >? last (entry table max))); [discriminate |].
    intros Hb.
    destruct (bisearch_loop_true ucs table _ 0 max (Nat.le_refl _) Hb)
      as [i [Hi Hin]].
    exists i. split; [exact Hi | split; [| exact Hin]].
    apply entry_in. lia.
Qed.

Lemma bisearch_true_sound_witness :
  0 <= 2 < Z.of_nat (length [IV 5 9; IV 1 3; IV 20 30]) /\
  Z.of_nat (length [IV 5 9; IV 1 3; IV 20 30]) <= 2 ^ 30 /\
  bisearch 25 [IV 5 9; IV 1 3; IV 20 30] 2 = true /\
  bisearch_checked 25 [IV 5 9; IV 1 3; IV 20 30] 2 = Some true /\
  exists i, 0 <= i <= 2 /\
    In (entry [IV 5 9; IV 1 3; IV 20 30] i) [IV 5 9; IV 1 3; IV 20 30] /\
    first (entry [IV 5 9; IV 1 3; IV 20 30] i) <= 25
      <= last (entry [IV 5 9; IV 1 3; IV 20 30] i).
Proof.
  assert (H1 : 0 <= 2 < Z.of_nat (length [IV 5 9; IV 1 3; IV 20 30]))
    by (simpl; lia).
  assert (H2 : Z.of_nat (length [IV 5 9; IV 1 3; IV 20 30]) <= 2 ^ 30)
    by (vm_compute; discriminate).
  assert (H3 : bisearch 25 [IV 5 9; IV 1 3; IV 20 30] 2 = true)
    by (vm_compute; reflexivity).
  split; [exact H1 | split; [exact H2 | split; [exact H3 |]]].
  exact (bisearch_true_sound 25 [IV 5 9; IV 1 3; IV 20 30] 2 H1 H2 H3).
Defined.

(** X3: [max] bounds the search: on a table of at most [2^30] entries
    that satisfies the invariant, with [max] any index of the table,
    [bisearch ucs table max] is true if and only if one of the entries
    [table[0]], ..., [table[max]] holds [ucs]; the entries after [max] are
    not looked at, and the answer is computed inside the range of [int]
    and inside the table. *)
Theorem bisearch_up_to_max (ucs : Z) (table : list interval) (max : Z) :
  table_invariant table ->
  0 <= max < Z.of_nat (length table) ->
  Z.of_nat (length table) <= 2 ^ 30 ->
  (bisearch ucs table max = true <->
   exists i, 0 <= i <= max /\
             first (entry table i) <= ucs <= last (entry table i)) /\
  bisearch_checked ucs table max = Some (bisearch ucs table max).
Proof.
  intros Hinv Hmax Hlen.
  split; [| exact (bisearch_checked_agrees ucs table max Hmax Hlen)].
  unfold bisearch.
  destruct (Z.ltb_spec ucs (first (entry table 0))) as [Hlow | Hlow];
    [| destruct (Z.gtb_spec ucs (last (entry table max))) as [Hhigh | Hhigh] ];
    simpl.
  - split; [discriminate |]. intros [i [Hi Hin]].
    pose proof (entry_first_mono table Hinv 0 i). lia.
  - split; [discriminate |]. intros [i [Hi Hin]].
    pose proof (entry_last_mono table Hinv i max). lia.
  - rewrite (bisearch_loop_spec table Hinv) by lia. reflexivity.
Qed.

Lemma bisearch_up_to_max_witness :
  table_invariant [IV 1 3; IV 5 9; IV 12 12] /\
  0 <= 1 < Z.of_nat (length [IV 1 3; IV 5 9; IV 12 12]) /\
  Z.of_nat (length [IV 1 3; IV 5 9; IV 12 12]) <= 2 ^ 30 /\
  bisearch 12 [IV 1 3; IV 5 9; IV 12 12] 1 = false /\
  bisearch 6 [IV 1 3; IV 5 9; IV 12 12] 1 = true.
Proof.
  assert (H1 : table_invariant [IV 1 3; IV 5 9; IV 12 12])
    by (apply table_invariantb_spec; reflexivity).
  assert (H2 : 0 <= 1 < Z.of_nat (length [IV 1 3; IV 5 9; IV 12 12]))
    by (simpl; lia).
  assert (H3 : Z.of_nat (length [IV 1 3; IV 5 9; IV 12 12]) <= 2 ^ 30)
    by (vm_compute; discriminate).
  split; [exact H1 | split; [exact H2 | split; [exact H3 | split]]].
  - apply not_true_is_false. intros Hb.
    apply (proj1 (bisearch_up_to_max 12 _ 1 H1 H2 H3)) in Hb.
    destruct Hb as [i [Hi Hin]].
    assert (Hcase : i = 0 \/ i = 1) by lia.
    destruct Hcase as [-> | ->]; vm_compute in Hin; destruct Hin as [Ha Hb];
      [apply Hb | apply Hb]; reflexivity.
  - apply (proj1 (bisearch_up_to_max 6 _ 1 H1 H2 H3)).
    exists 1. split; [lia |]. simpl. lia.
Defined.

(** ** The number of probes of [bisearch] *)

Lemma bisearch_loop_iterations_step ucs table lo hi :
  bisearch_loop_iterations ucs table lo hi =
    if hi >=? lo then
      if ucs >? last (entry table (midpoint lo hi))
      then S (bisearch_loop_iterations ucs table (midpoint lo hi + 1) hi)
      else if ucs <? first (entry table (midpoint lo hi))
           then S (bisearch_loop_iterations ucs table lo (midpoint lo hi - 1))
           else 1%nat
    else 0%nat.
Proof.
  funelim (bisearch_loop_iterations ucs table lo hi);
    destruct (Z.geb_spec hi lo); try lia; try reflexivity;
    destruct (Z.gtb_spec ucs (last (entry table (midpoint lo hi))));
    try lia; try reflexivity;
    destruct (Z.ltb_spec ucs (first (entry table (midpoint lo hi))));
    try lia; reflexivity.
Qed.

(** Half of a range of [s] indices is left after a probe. *)
Lemma midpoint_halves lo hi :
  lo <= hi ->
  2 * (hi - (midpoint lo hi + 1) + 1) <= hi - lo + 1 /\
  2 * ((midpoint lo hi - 1) - lo + 1) <= hi - lo + 1.
Proof.
  intros H. unfold midpoint.
  pose proof (Z.quot_le_lower_bound (lo + hi) 2 lo).
  pose proof (Z.quot_le_upper_bound (lo + hi) 2 hi).
  destruct (Z_le_gt_dec 0 (lo + hi)) as [Hpos | Hneg].
  - rewrite Z.quot_div_nonneg by lia.
    pose proof (Z.div_mod (lo + hi) 2 ltac:(lia)).
    pose proof (Z.mod_pos_bound (lo + hi) 2 ltac:(lia)). lia.
  - pose proof (Z.quot_rem' (lo + hi) 2) as Hqr.
    pose proof (Z.rem_bound_neg_neg (lo + hi) 2) as Hrn.
    pose proof (Z.rem_bound_pos (lo + hi) 2) as Hrp.
    pose proof (Z.rem_nonpos (lo + hi) 2 ltac:(lia) ltac:(lia)) as Hr.
    assert (-2 < Z.rem (lo + hi) 2).
    { pose proof (Z.rem_opp_l' (- (lo + hi)) 2) as Ho.
      rewrite Z.opp_involutive in Ho.
      pose proof (Z.rem_bound_pos (- (lo + hi)) 2 ltac:(lia) ltac:(lia)).
      lia. }
    lia.
Qed.

Lemma bisearch_loop_iterations_bound ucs table (m : nat) :
  forall lo hi,
  (Z.to_nat (hi - lo + 1) <= m)%nat ->
  lo <= hi ->
  Z.of_nat (bisearch_loop_iterations ucs table lo hi)
  <= Z.log2 (hi - lo + 1) + 1.
Proof.
  induction m as [|m IH]; intros lo hi Hm Hle; [lia |].
  rewrite bisearch_loop_iterations_step.
  destruct (Z.geb_spec hi lo); [| lia].
  pose proof (midpoint_bounds lo hi Hle) as Hmid.
  destruct (midpoint_halves lo hi Hle) as [Hright Hleft].
  pose proof (Z.log2_nonneg (hi - lo + 1)) as Hlog.
  assert (Hhalf : forall s, 1 <= s -> 2 * s <= hi - lo + 1 ->
                            Z.log2 s + 1 <= Z.log2 (hi - lo + 1)).
  { intros s Hs H2s.
    pose proof (Z.log2_double s ltac:(lia)).
    pose proof (Z.log2_le_mono (2 * s) (hi - lo + 1) H2s). lia. }
  destruct (ucs >? last (entry table (midpoint lo hi))).
  - destruct (Z_le_gt_dec (midpoint lo hi + 1) hi) as [Hin | Hout].
    + specialize (IH (midpoint lo hi + 1) hi ltac:(lia) Hin).
      specialize (Hhalf (hi - (midpoint lo hi + 1) + 1) ltac:(lia) Hright).
      lia.
    + rewrite bisearch_loop_iterations_step.
      destruct (Z.geb_spec hi (midpoint lo hi + 1)); lia.
  - destruct (ucs <? first (entry table (midpoint lo hi))); [| lia].
    destruct (Z_le_gt_dec lo (midpoint lo hi - 1)) as [Hin | Hout].
    + specialize (IH lo (midpoint lo hi - 1) ltac:(lia) Hin).
      specialize (Hhalf ((midpoint lo hi - 1) - lo + 1) ltac:(lia) Hleft).
      lia.
    + rewrite bisearch_loop_iterations_step.
      destruct (Z.geb_spec (midpoint lo hi - 1) lo); lia.
Qed.

(** X4: the search is logarithmic: on a table of at most [2^30] entries,
    with [max] an index of the table, the loop of [bisearch], started on
    the index range [0 .. max], inspects at most [log2 (max + 1) + 1]
    entries of the table, whatever the table holds; that is at most 9
    entries of [combining] and at most 6 entries of [wide]. *)
Theorem bisearch_logarithmic :
  (forall (ucs : Z) (table : list interval) (max : Z),
     0 <= max < Z.of_nat (length table) ->
     Z.of_nat (length table) <= 2 ^ 30 ->
     Z.of_nat (bisearch_loop_iterations ucs table 0 max)
     <= Z.log2 (max + 1) + 1) /\
  (forall ucs,
     (bisearch_loop_iterations ucs combining 0 (last_index combining) <= 9)%nat) /\
  (forall ucs,
     (bisearch_loop_iterations ucs wide 0 (last_index wide) <= 6)%nat).
Proof.
  assert (Hgen : forall ucs table max, 0 <= max ->
     Z.of_nat (bisearch_loop_iterations ucs table 0 max)
     <= Z.log2 (max + 1) + 1).
  { intros ucs table max Hmax.
    pose proof (bisearch_loop_iterations_bound ucs table _ 0 max
                  (Nat.le_refl _) Hmax) as H.
    now replace (max - 0 + 1) with (max + 1) in H by lia. }
  split; [intros ucs table max [Hmax _] _; now apply Hgen | split; intros ucs].
  - pose proof (Hgen ucs combining (last_index combining)
                  ltac:(vm_compute; discriminate)) as H.
    change (Z.log2 (last_index combining + 1) + 1) with 9 in H. lia.
  - pose proof (Hgen ucs wide (last_index wide)
                  ltac:(vm_compute; discriminate)) as H.
    change (Z.log2 (last_index wide + 1) + 1) with 6 in H. lia.
Qed.

Lemma bisearch_logarithmic_witness :
  0 <= 2 < Z.of_nat (length [IV 1 3; IV 5 9; IV 12 12]) /\
  Z.of_nat (length [IV 1 3; IV 5 9; IV 12 12]) <= 2 ^ 30 /\
  Z.of_nat (bisearch_loop_iterations 7 [IV 1 3; IV 5 9; IV 12 12] 0 2)
  <= Z.log2 (2 + 1) + 1.
Proof.
  assert (H1 : 0 <= 2 < Z.of_nat (length [IV 1 3; IV 5 9; IV 12 12]))
    by (simpl; lia).
  assert (H2 : Z.of_nat (length [IV 1 3; IV 5 9; IV 12 12]) <= 2 ^ 30)
    by (vm_compute; discriminate).
  split; [exact H1 | split; [exact H2 |]].
  exact (proj1 bisearch_logarithmic 7 [IV 1 3; IV 5 9; IV 12 12] 2 H1 H2).
Defined.

(** ** The classifier, width by width *)

(** X5: the binary searches do not change what the classifier computes:
    for every [c], [mk_wcwidth c] is the width obtained by the same chain
    of tests with each table scanned entry by entry. *)
Theorem mk_wcwidth_decision_list (c : Z) :
  mk_wcwidth c =
    if c <? 0x0300 then
      if c =? 0 then 0
      else if (c <? 32) || ((c >=? 0x7f) && (c <? 0xa0)) then -1
      else 1
    else if in_tableb c combining then 0
    else if c <? 0x1100 then 1
    else if (c >=? 0x1160) && (c <=? 0x11FF) then 0
    else 1 + Z.b2z (in_tableb c wide).
Proof.
  destruct (Z.ltb_spec c 0x0300).
  - now apply mk_wcwidth_low.
  - now apply mk_wcwidth_high.
Qed.

Lemma mk_wcwidth_high_nonneg c : 0x0300 <= c -> 0 <= mk_wcwidth c.
Proof.
  intros H. rewrite mk_wcwidth_high by assumption.
  destruct (in_tableb c combining); [lia |].
  destruct (c <? 0x1100); [lia |].
  destruct ((c >=? 0x1160) && (c <=? 0x11FF)); [lia |].
  destruct (in_tableb c wide); simpl; lia.
Qed.

Lemma mk_wcwidth_cjk_cases c :
  (mk_wcwidth c = 1 /\ mk_wcwidth_cjk c = 2 /\
   0x00A1 <= c < 0xFF61 /\ c <> 0x20A9) \/
  (mk_wcwidth_cjk c = mk_wcwidth c /\
   ~ (mk_wcwidth c = 1 /\ 0x00A1 <= c < 0xFF61 /\ c <> 0x20A9)).
Proof.
  unfold mk_wcwidth_cjk. cbv zeta.
  destruct (Z.eqb_spec (mk_wcwidth c) 1);
    destruct (Z.geb_spec c 0x00A1);
    destruct (Z.ltb_spec c 0xFF61);
    destruct (Z.eqb_spec c 0x20A9); simpl;
    first [left; repeat split; (assumption || lia)
          | right; split; [reflexivity | lia]].
Qed.

Lemma mk_wcwidth_control c :
  0 <= c ->
  (mk_wcwidth c = -1 <-> 1 <= c <= 0x1F \/ 0x7F <= c <= 0x9F).
Proof.
  intros Hc.
  destruct (Z_lt_ge_dec c 0x0300) as [Hlow | Hhigh].
  - rewrite mk_wcwidth_low by assumption.
    destruct (Z.eqb_spec c 0); [lia |].
    destruct (Z.ltb_spec c 32); [simpl; lia |].
    destruct (Z.geb_spec c 0x7f); [| simpl; lia].
    destruct (Z.ltb_spec c 0xa0); simpl; lia.
  - pose proof (mk_wcwidth_high_nonneg c ltac:(lia)). lia.
Qed.

(** X6: the non-printable code points are exactly the C0 and C1 control
    characters and DEL: for every code point [c], [mk_wcwidth c] is -1 if
    and only if [c] is in [1 .. 0x1F] or in [0x7F .. 0x9F], and the same
    holds of [mk_wcwidth_cjk]. *)
Theorem mk_wcwidth_nonprintable_iff (c : Z) :
  code_point c ->
  (mk_wcwidth c = -1 <-> 1 <= c <= 0x1F \/ 0x7F <= c <= 0x9F) /\
  (mk_wcwidth_cjk c = -1 <-> 1 <= c <= 0x1F \/ 0x7F <= c <= 0x9F).
Proof.
  intros [Hc _].
  pose proof (mk_wcwidth_control c Hc) as Hbase.
  split; [exact Hbase |].
  rewrite <- Hbase.
  destruct (mk_wcwidth_cjk_cases c) as [[H1 [H2 _]] | [Heq _]]; lia.
Qed.

Lemma mk_wcwidth_nonprintable_iff_witness :
  code_point 0x85 /\ mk_wcwidth 0x85 = -1 /\ mk_wcwidth_cjk 0x85 = -1.
Proof.
  assert (H : code_point 0x85) by (unfold code_point; lia).
  split; [exact H |].
  destruct (mk_wcwidth_nonprintable_iff 0x85 H) as [H1 H2].
  split; [apply H1 | apply H2]; lia.
Defined.

(** X7: the code points of width 0 are exactly NUL, the members of
    [combining] other than the soft hyphen, and the Hangul Jamo range
    [0x1160 .. 0x11FF]. *)
Theorem mk_wcwidth_zero_iff (c : Z) :
  mk_wcwidth c = 0 <->
  c = 0 \/ (in_table c combining /\ c <> 0x00AD) \/ 0x1160 <= c <= 0x11FF.
Proof.
  destruct (Z_lt_ge_dec c 0x0300) as [Hlow | Hhigh].
  - rewrite mk_wcwidth_low by assumption.
    assert (Hcomb : in_table c combining -> c = 0x00AD).
    { intros Hin. destruct (combining_soft_hyphen_or_high c Hin); lia. }
    destruct (Z.eqb_spec c 0) as [Hz | Hnz]; [tauto |].
    destruct ((c <? 32) || ((c >=? 0x7f) && (c <? 0xa0)));
      (split; [discriminate | intros [H0 | [[H1 H2] | H3]]; [lia | | lia]]);
      specialize (Hcomb H1); lia.
  - rewrite mk_wcwidth_high by lia.
    destruct (in_tableb c combining) eqn:Hcomb.
    + apply in_tableb_spec in Hcomb. split; [intros _ | reflexivity].
      right. left. split; [exact Hcomb | lia].
    + assert (Hnot : ~ in_table c combining).
      { rewrite <- in_tableb_spec, Hcomb. discriminate. }
      destruct (in_tableb c wide);
        (destruct (Z.ltb_spec c 0x1100) as [Hl | Hl];
         [| destruct (Z.geb_spec c 0x1160) as [Hj | Hj];
            [destruct (Z.leb_spec c 0x11FF) as [Hk | Hk] |] ]); simpl;
        (split;
         [ try discriminate; intros _; right; right; lia
         | intros [H0 | [[H1 H2] | H3]];
           [lia | tauto | try reflexivity; lia] ]).
Qed.

(** X8: the code points of width 2 are exactly the members of [wide] that
    are not members of [combining]. *)
Theorem mk_wcwidth_two_iff (c : Z) :
  mk_wcwidth c = 2 <-> in_table c wide /\ ~ in_table c combining.
Proof.
  split.
  - intros H2.
    destruct (Z_lt_ge_dec c 0x0300) as [Hlow | Hhigh].
    { rewrite mk_wcwidth_low in H2 by assumption.
      destruct (c =? 0); [discriminate |].
      destruct ((c <? 32) || ((c >=? 0x7f) && (c <? 0xa0))); discriminate. }
    rewrite mk_wcwidth_high in H2 by lia.
    destruct (in_tableb c combining) eqn:Hcomb; [discriminate |].
    destruct (c <? 0x1100); [discriminate |].
    destruct ((c >=? 0x1160) && (c <=? 0x11FF)); [discriminate |].
    destruct (in_tableb c wide) eqn:Hwide; [| discriminate].
    split; [now apply in_tableb_spec |].
    rewrite <- in_tableb_spec, Hcomb. discriminate.
  - intros [Hwide Hcomb].
    destruct (wide_above_jamo c Hwide) as [Hlow Hjamo].
    rewrite mk_wcwidth_high by lia.
    rewrite (not_in_tableb _ _ Hcomb).
    apply in_tableb_spec in Hwide. rewrite Hwide.
    destruct (Z.ltb_spec c 0x1100); [lia |].
    destruct (Z.geb_spec c 0x1160); [| reflexivity].
    destruct (Z.leb_spec c 0x11FF); [lia | reflexivity].
Qed.

(** ** Where the two tables meet, and where they end *)

Lemma common_spec c t1 t2 :
  in_table c (common t1 t2) <-> in_table c t1 /\ in_table c t2.
Proof.
  unfold in_table, common, in_interval. split.
  - intros [iv [Hin Hiv]].
    apply in_flat_map in Hin as [a [Ha Hin]].
    apply in_flat_map in Hin as [b [Hb Hin]].
    destruct (Z.leb_spec (Z.max (first a) (first b))
                (Z.min (last a) (last b))); [| contradiction].
    destruct Hin as [<- | []]. simpl in Hiv.
    split; [exists a | exists b]; (split; [assumption | lia]).
  - intros [[a [Ha Hia]] [b [Hb Hib]]].
    exists (IV (Z.max (first a) (first b)) (Z.min (last a) (last b))).
    split; [| simpl; lia].
    apply in_flat_map. exists a. split; [exact Ha |].
    apply in_flat_map. exists b. split; [exact Hb |].
    destruct (Z.leb_spec (Z.max (first a) (first b))
                (Z.min (last a) (last b))); [now left | lia].
Qed.

(** X9: the two tables overlap in exactly two places: a code point lies in
    an interval of [wide] and in an interval of [combining] if and only if
    it is in [0x302A .. 0x302D] or in [0x3099 .. 0x309A].  (These are the
    members of [wide] whose width is 0.) *)
Theorem wide_combining_overlap (c : Z) :
  in_table c wide /\ in_table c combining <->
  0x302A <= c <= 0x302D \/ 0x3099 <= c <= 0x309A.
Proof.
  rewrite <- common_spec.
  replace (common wide combining) with [IV 0x302a 0x302d; IV 0x3099 0x309a]
    by (vm_compute; reflexivity).
  unfold in_table, in_interval. split.
  - intros [iv [[<- | [<- | []]] Hiv]]; simpl in Hiv; lia.
  - intros [Hc | Hc]; [exists (IV 0x302a 0x302d) | exists (IV 0x3099 0x309a)];
      (split; [simpl; tauto | simpl; lia]).
Qed.

Lemma above_table table bound c :
  forallb (fun iv => last iv <=? bound) table = true ->
  bound < c -> ~ in_table c table.
Proof.
  intros Hall Hc Hin.
  destruct (in_table_forallb _ c table Hall Hin) as [iv [Hp Hiv]].
  unfold in_interval in Hiv. apply Z.leb_le in Hp. lia.
Qed.

(** X10: above the last entry of the tables every value has width 1: for
    every [c] greater than [0xE01EF], which includes every 32-bit value
    that is not a Unicode code point, [mk_wcwidth c] and
    [mk_wcwidth_cjk c] are 1. *)
Theorem mk_wcwidth_above_tables (c : Z) :
  0xE01EF < c ->
  mk_wcwidth c = 1 /\ mk_wcwidth_cjk c = 1.
Proof.
  intros Hc.
  assert (H1 : mk_wcwidth c = 1).
  { rewrite mk_wcwidth_high by lia.
    rewrite (not_in_tableb c combining),  (not_in_tableb c wide).
    - destruct (Z.ltb_spec c 0x1100); [lia |].
      destruct (Z.geb_spec c 0x1160); [| reflexivity].
      destruct (Z.leb_spec c 0x11FF); [lia | reflexivity].
    - apply (above_table wide 0xE01EF); [vm_compute; reflexivity | exact Hc].
    - apply (above_table combining 0xE01EF);
        [vm_compute; reflexivity | exact Hc]. }
  split; [exact H1 |].
  destruct (mk_wcwidth_cjk_cases c) as [[_ [_ [Hr _]]] | [Heq _]]; lia.
Qed.

Lemma mk_wcwidth_above_tables_witness :
  0xE01EF < 0xFFFFFFFF /\
  mk_wcwidth 0xFFFFFFFF = 1 /\ mk_wcwidth_cjk 0xFFFFFFFF = 1.
Proof.
  assert (H : 0xE01EF < 0xFFFFFFFF) by lia.
  split; [exact H | exact (mk_wcwidth_above_tables 0xFFFFFFFF H)].
Defined.

(** X11: [mk_wcwidth_cjk] against [mk_wcwidth]: for every [c] its value is
    one of -1, 0, 1, 2 and is never below [mk_wcwidth c]; it is 0 exactly
    when [mk_wcwidth c] is 0; and for [c] in [0x00A1 .. 0xFF60] other than
    [0x20A9] it is never 1. *)
Theorem mk_wcwidth_cjk_widens (c : Z) :
  In (mk_wcwidth_cjk c) [-1; 0; 1; 2] /\
  mk_wcwidth c <= mk_wcwidth_cjk c /\
  (mk_wcwidth_cjk c = 0 <-> mk_wcwidth c = 0) /\
  (0x00A1 <= c < 0xFF61 -> c <> 0x20A9 -> mk_wcwidth_cjk c <> 1).
Proof.
  pose proof (mk_wcwidth_range c) as Hr.
  destruct (mk_wcwidth_cjk_cases c) as [[H1 [H2 [Hband Hwon]]] | [Heq Hnot]].
  - rewrite H1, H2. simpl. repeat split; try lia; tauto.
  - rewrite Heq. simpl. repeat split; try lia; try tauto.
Qed.

Lemma mk_wcwidth_cjk_widens_witness :
  0x00A1 <= 0x00B1 < 0xFF61 /\ 0x00B1 <> 0x20A9 /\
  mk_wcwidth_cjk 0x00B1 <> 1.
Proof.
  assert (H1 : 0x00A1 <= 0x00B1 < 0xFF61) by lia.
  assert (H2 : 0x00B1 <> 0x20A9) by discriminate.
  split; [exact H1 | split; [exact H2 |]].
  exact (proj2 (proj2 (proj2 (mk_wcwidth_cjk_widens 0x00B1))) H1 H2).
Defined.

(** ** More on the sequence functions *)

Lemma below_2_30 (n : nat) : Z.of_nat n < 2 ^ 30 -> 0 + 2 * Z.of_nat n <= INT_MAX.
Proof. unfold INT_MAX. lia. Qed.

(** X12: for every limit [n] below [2^30] the result of a sequence
    function is -1 or lies between 0 and twice the limit:
    [mk_wcswidth pwcs n] is -1 or [0 <= mk_wcswidth pwcs n <= 2 * n], and
    likewise for [mk_wcswidth_cjk]. *)
Theorem wcswidth_bounds (pwcs : buffer) (n : nat) :
  Z.of_nat n < 2 ^ 30 ->
  (mk_wcswidth pwcs n = -1 \/ 0 <= mk_wcswidth pwcs n <= 2 * Z.of_nat n) /\
  (mk_wcswidth_cjk pwcs n = -1 \/
   0 <= mk_wcswidth_cjk pwcs n <= 2 * Z.of_nat n).
Proof.
  intros Hn. pose proof (below_2_30 n Hn) as Hmax.
  rewrite mk_wcswidth_eq, mk_wcswidth_cjk_eq. split.
  - destruct (width_loop_cases mk_wcwidth mk_wcwidth_range2 pwcs 0 n 0
                (Z.le_refl 0) Hmax)
      as [[_ Hw] | [_ [Hw Hs]]]; [now left | right; lia].
  - destruct (width_loop_cases mk_wcwidth_cjk mk_wcwidth_cjk_range2 pwcs 0 n 0
                (Z.le_refl 0) Hmax)
      as [[_ Hw] | [_ [Hw Hs]]]; [now left | right; lia].
Qed.

Lemma wcswidth_bounds_witness :
  Z.of_nat 3 < 2 ^ 30 /\
  (mk_wcswidth (cells [0x4E2D; 0x41; 0x6587] (fun _ => 0)) 3 = -1 \/
   0 <= mk_wcswidth (cells [0x4E2D; 0x41; 0x6587] (fun _ => 0)) 3
     <= 2 * Z.of_nat 3).
Proof.
  assert (H : Z.of_nat 3 < 2 ^ 30) by reflexivity.
  split; [exact H |].
  exact (proj1 (wcswidth_bounds (cells [0x4E2D; 0x41; 0x6587] (fun _ => 0))
                  3 H)).
Defined.

Lemma mk_wcwidth_cjk_pointwise c :
  (mk_wcwidth_cjk c = -1 <-> mk_wcwidth c = -1) /\
  (mk_wcwidth c <> -1 ->
   mk_wcwidth c <= mk_wcwidth_cjk c <= 2 * mk_wcwidth c).
Proof.
  pose proof (mk_wcwidth_range c) as Hr.
  destruct (mk_wcwidth_cjk_cases c) as [[H1 [H2 _]] | [Heq _]]; lia.
Qed.

Lemma sum_widths_cjk pwcs i k :
  (forall j, (j < k)%nat -> mk_wcwidth (pwcs (i + j)%nat) <> -1) ->
  sum_widths mk_wcwidth pwcs i k <= sum_widths mk_wcwidth_cjk pwcs i k
  <= 2 * sum_widths mk_wcwidth pwcs i k.
Proof.
  revert i. induction k as [|k IH]; intros i Hall; simpl sum_widths; [lia |].
  assert (H0 : mk_wcwidth (pwcs i) <> -1).
  { specialize (Hall 0%nat ltac:(lia)). now rewrite Nat.add_0_r in Hall. }
  pose proof (proj2 (mk_wcwidth_cjk_pointwise (pwcs i)) H0).
  assert (sum_widths mk_wcwidth pwcs (S i) k
          <= sum_widths mk_wcwidth_cjk pwcs (S i) k
          <= 2 * sum_widths mk_wcwidth pwcs (S i) k).
  { apply IH. intros j Hj. specialize (Hall (S j) ltac:(lia)).
    now replace (S i + j)%nat with (i + S j)%nat by lia. }
  lia.
Qed.

Lemma wcswidth_cjk_plain (pwcs : buffer) (n : nat) :
  Z.of_nat n < 2 ^ 30 ->
  (mk_wcswidth_cjk pwcs n = -1 <-> mk_wcswidth pwcs n = -1) /\
  (mk_wcswidth pwcs n <> -1 ->
   mk_wcswidth pwcs n <= mk_wcswidth_cjk pwcs n <= 2 * mk_wcswidth pwcs n).
Proof.
  intros Hn. pose proof (below_2_30 n Hn) as Hmax.
  rewrite mk_wcswidth_eq, mk_wcswidth_cjk_eq.
  destruct (width_loop_cases mk_wcwidth mk_wcwidth_range2 pwcs 0 n 0
              (Z.le_refl 0) Hmax)
    as [[[j [Hj Hbad]] Hw] | [Hgood [Hw Hs]]].
  - assert (Hcjk : width_loop mk_wcwidth_cjk pwcs 0 n 0 = -1).
    { apply width_loop_fails. exists j. split; [exact Hj |].
      now apply mk_wcwidth_cjk_pointwise. }
    rewrite Hw, Hcjk. split; [tauto | congruence].
  - assert (Hgood' : forall j, (j < consumed pwcs 0 n)%nat ->
                       mk_wcwidth_cjk (pwcs (0 + j)%nat) <> -1).
    { intros j Hj Hc. apply mk_wcwidth_cjk_pointwise in Hc.
      exact (Hgood j Hj Hc). }
    pose proof (sum_widths_cjk pwcs 0 _ Hgood) as Hcmp.
    pose proof (sum_widths_bounds mk_wcwidth_cjk mk_wcwidth_cjk_range2
                  pwcs 0 _ Hgood') as Hb.
    pose proof (consumed_le pwcs 0 n) as Hle.
    rewrite (width_loop_sums mk_wcwidth_cjk mk_wcwidth_cjk_range2
               pwcs 0 n 0 Hgood') by (unfold INT_MAX in *; lia).
    rewrite Hw. split; [split; lia | lia].
Qed.

(** X13: for every limit [n] below [2^30] the two sequence functions fail
    together, and otherwise the legacy width lies between the plain width
    and twice the plain width: [mk_wcswidth_cjk pwcs n] is -1 if and only
    if [mk_wcswidth pwcs n] is -1, and when it is not,
    [mk_wcswidth pwcs n <= mk_wcswidth_cjk pwcs n <= 2 * mk_wcswidth pwcs n]. *)
Theorem wcswidth_cjk_against_plain (pwcs : buffer) (n : nat) :
  Z.of_nat n < 2 ^ 30 ->
  (mk_wcswidth_cjk pwcs n = -1 <-> mk_wcswidth pwcs n = -1) /\
  (mk_wcswidth pwcs n <> -1 ->
   mk_wcswidth pwcs n <= mk_wcswidth_cjk pwcs n <= 2 * mk_wcswidth pwcs n).
Proof. exact (wcswidth_cjk_plain pwcs n). Qed.

Lemma wcswidth_cjk_against_plain_witness :
  Z.of_nat 3 < 2 ^ 30 /\
  mk_wcswidth (cells [0x41; 0x00A7; 0x4E2D] (fun _ => 0)) 3 <> -1 /\
  mk_wcswidth (cells [0x41; 0x00A7; 0x4E2D] (fun _ => 0)) 3
  <= mk_wcswidth_cjk (cells [0x41; 0x00A7; 0x4E2D] (fun _ => 0)) 3
  <= 2 * mk_wcswidth (cells [0x41; 0x00A7; 0x4E2D] (fun _ => 0)) 3.
Proof.
  assert (Hn : Z.of_nat 3 < 2 ^ 30) by reflexivity.
  assert (H : mk_wcswidth (cells [0x41; 0x00A7; 0x4E2D] (fun _ => 0)) 3 <> -1)
    by (vm_compute; discriminate).
  split; [exact Hn | split; [exact H |]].
  exact (proj2 (wcswidth_cjk_against_plain _ 3%nat Hn) H).
Defined.

(** X14: for every limit [n] below [2^30] a sequence fails exactly when a
    control character is among the elements it traverses: with [k] the
    stop position and code points in the buffer, [mk_wcswidth pwcs n] is
    -1 if and only if some [pwcs j] with [j < k] is in [1 .. 0x1F] or in
    [0x7F .. 0x9F]; likewise for [mk_wcswidth_cjk]. *)
Theorem wcswidth_fails_iff_control (pwcs : buffer) (n k : nat) :
  Z.of_nat n < 2 ^ 30 ->
  stops_at pwcs n k ->
  (forall j, (j < k)%nat -> code_point (pwcs j)) ->
  (mk_wcswidth pwcs n = -1 <->
   exists j, (j < k)%nat /\
             (1 <= pwcs j <= 0x1F \/ 0x7F <= pwcs j <= 0x9F)) /\
  (mk_wcswidth_cjk pwcs n = -1 <->
   exists j, (j < k)%nat /\
             (1 <= pwcs j <= 0x1F \/ 0x7F <= pwcs j <= 0x9F)).
Proof.
  intros Hn Hk Hcp. apply stops_at_unique in Hk. subst k.
  pose proof (below_2_30 n Hn) as Hmax.
  assert (Hplain : mk_wcswidth pwcs n = -1 <->
    exists j, (j < consumed pwcs 0 n)%nat /\
              (1 <= pwcs j <= 0x1F \/ 0x7F <= pwcs j <= 0x9F)).
  { rewrite mk_wcswidth_eq.
    destruct (width_loop_cases mk_wcwidth mk_wcwidth_range2 pwcs 0 n 0
                (Z.le_refl 0) Hmax)
      as [[[j [Hj Hbad]] Hw] | [Hgood [Hw Hs]]].
    - split; [intros _ | intros _; exact Hw].
      exists j. split; [exact Hj |].
      change (0 + j)%nat with j in Hbad.
      exact (proj1 (mk_wcwidth_control (pwcs j) (proj1 (Hcp j Hj))) Hbad).
    - split; [lia |]. intros [j [Hj Hctl]]. exfalso.
      apply (Hgood j Hj). change (0 + j)%nat with j.
      exact (proj2 (mk_wcwidth_control (pwcs j) (proj1 (Hcp j Hj))) Hctl). }
  split; [exact Hplain |].
  rewrite <- Hplain. now apply wcswidth_cjk_plain.
Qed.

Lemma wcswidth_fails_iff_control_witness :
  Z.of_nat 8 < 2 ^ 30 /\
  stops_at (cells [0x41; 0x1B; 0x42] (fun _ => 0)) 8 3 /\
  mk_wcswidth (cells [0x41; 0x1B; 0x42] (fun _ => 0)) 8 = -1.
Proof.
  assert (Hn : Z.of_nat 8 < 2 ^ 30) by reflexivity.
  assert (Hk : stops_at (cells [0x41; 0x1B; 0x42] (fun _ => 0)) 8 3).
  { split; [lia | split].
    - intros [|[|[|j]]] Hj; [discriminate | discriminate | discriminate | lia].
    - intros _. reflexivity. }
  assert (Hcp : forall j, (j < 3)%nat ->
                  code_point (cells [0x41; 0x1B; 0x42] (fun _ => 0) j)).
  { intros [|[|[|j]]] Hj; [vm_compute | vm_compute | vm_compute | lia];
      (split; [discriminate | reflexivity]). }
  split; [exact Hn | split; [exact Hk |]].
  apply (proj1 (wcswidth_fails_iff_control _ 8%nat 3%nat Hn Hk Hcp)).
  exists 1%nat. split; [lia | left; vm_compute; split; discriminate].
Defined.

(** X15: a limit beyond the zero element changes nothing: if [pwcs k] is
    zero, then for every limit [n >= k] both sequence functions give the
    result they give for the limit [k]. *)
Theorem wcswidth_limit_past_zero (pwcs : buffer) (k n : nat) :
  pwcs k = 0 ->
  (k <= n)%nat ->
  mk_wcswidth pwcs n = mk_wcswidth pwcs k /\
  mk_wcswidth_cjk pwcs n = mk_wcswidth_cjk pwcs k.
Proof.
  intros Hz Hn. rewrite !mk_wcswidth_eq, !mk_wcswidth_cjk_eq.
  split; apply width_loop_past_zero; assumption.
Qed.

Lemma wcswidth_limit_past_zero_witness :
  cells [0x4E2D; 0x41; 0; 0x07] (fun _ => 0x42) 2%nat = 0 /\
  (2 <= 7)%nat /\
  mk_wcswidth (cells [0x4E2D; 0x41; 0; 0x07] (fun _ => 0x42)) 7 =
  mk_wcswidth (cells [0x4E2D; 0x41; 0; 0x07] (fun _ => 0x42)) 2.
Proof.
  assert (H1 : cells [0x4E2D; 0x41; 0; 0x07] (fun _ => 0x42) 2%nat = 0)
    by reflexivity.
  assert (H2 : (2 <= 7)%nat) by lia.
  split; [exact H1 | split; [exact H2 |]].
  exact (proj1 (wcswidth_limit_past_zero _ 2%nat 7%nat H1 H2)).
Defined.

(** X16: widths add up: when [m + n] is below [2^30] and the first [m]
    elements of the buffer are not zero and are printable, then
    [mk_wcswidth pwcs (m + n)] is -1 when the rest of the buffer,
    [pwcs + m] with limit [n], gives -1, and otherwise it is the width of
    the first [m] elements plus the width of the rest. *)
Theorem mk_wcswidth_additive (pwcs : buffer) (m n : nat) :
  Z.of_nat (m + n) < 2 ^ 30 ->
  (forall j, (j < m)%nat -> pwcs j <> 0 /\ mk_wcwidth (pwcs j) <> -1) ->
  mk_wcswidth pwcs (m + n) =
    if mk_wcswidth (advance pwcs m) n =? -1 then -1
    else mk_wcswidth pwcs m + mk_wcswidth (advance pwcs m) n.
Proof.
  intros Hmn Hall. rewrite !mk_wcswidth_eq.
  assert (Hsum : 0 <= sum_widths mk_wcwidth pwcs 0 m <= 2 * Z.of_nat m).
  { apply (sum_widths_bounds mk_wcwidth mk_wcwidth_range2).
    intros j Hj. now apply Hall. }
  assert (Hm : width_loop mk_wcwidth pwcs 0 m 0
               = 0 + sum_widths mk_wcwidth pwcs 0 m).
  { pose proof (width_loop_split mk_wcwidth mk_wcwidth_range2 pwcs 0 m 0 0
                  Hall (Z.le_refl 0) ltac:(unfold INT_MAX; lia)) as H.
    rewrite Nat.add_0_r in H. rewrite H.
    now rewrite width_loop_limit_0. }
  rewrite (width_loop_split mk_wcwidth mk_wcwidth_range2 pwcs 0 m n 0
             Hall (Z.le_refl 0)) by (unfold INT_MAX; lia).
  rewrite (width_loop_accumulator mk_wcwidth mk_wcwidth_range2 pwcs
             (0 + m) n) by (unfold INT_MAX; lia).
  rewrite (width_loop_shift mk_wcwidth pwcs (advance pwcs m) (0 + m) 0 n 0)
    by (intros j; reflexivity).
  now rewrite Hm.
Qed.

Lemma mk_wcswidth_additive_witness :
  mk_wcswidth (cells [0x41; 0x4E2D; 0x42; 0x0301; 0] (fun _ => 0)) (2 + 3) =
  mk_wcswidth (cells [0x41; 0x4E2D; 0x42; 0x0301; 0] (fun _ => 0)) 2 +
  mk_wcswidth
    (advance (cells [0x41; 0x4E2D; 0x42; 0x0301; 0] (fun _ => 0)) 2) 3.
Proof.
  rewrite (mk_wcswidth_additive
             (cells [0x41; 0x4E2D; 0x42; 0x0301; 0] (fun _ => 0)) 2 3).
  - vm_compute. reflexivity.
  - reflexivity.
  - intros [|[|j]] Hj; [| | lia]; split; vm_compute; discriminate.
Defined.

(** ** What [mk_wcswidth] reads *)

Lemma mk_wcswidth_reads_bound pwcs i n j :
  In j (mk_wcswidth_reads pwcs i n) ->
  (i <= j <= i + consumed pwcs i n)%nat.
Proof.
  revert i. induction n as [|n IH]; intros i; simpl.
  - destruct (pwcs i =? 0); simpl; intros [<- | []]; lia.
  - destruct (pwcs i =? 0); simpl; [intros [<- | []]; lia |].
    destruct (mk_wcwidth (pwcs i) <? 0); simpl; [intros [<- | []]; lia |].
    intros [<- | Hin]; [lia |]. specialize (IH (S i) Hin). lia.
Qed.

Lemma mk_wcswidth_reads_all pwcs i n :
  (forall j, (j < consumed pwcs i n)%nat ->
             mk_wcwidth (pwcs (i + j)%nat) <> -1) ->
  mk_wcswidth_reads pwcs i n = seq i (S (consumed pwcs i n)).
Proof.
  revert i. induction n as [|n IH]; intros i Hall; simpl in *.
  - destruct (pwcs i =? 0); reflexivity.
  - destruct (pwcs i =? 0); [reflexivity |].
    assert (H0 : mk_wcwidth (pwcs i) <> -1).
    { specialize (Hall 0%nat ltac:(lia)). now rewrite Nat.add_0_r in Hall. }
    destruct (Z.ltb_spec (mk_wcwidth (pwcs i)) 0) as [Hneg | Hpos];
      [destruct (mk_wcwidth_range' (pwcs i)); lia |].
    f_equal. apply IH. intros j Hj. specialize (Hall (S j) ltac:(lia)).
    now replace (S i + j)%nat with (i + S j)%nat by lia.
Qed.

(** X17: what [mk_wcswidth] reads: with [k] the stop position, every
    offset at which it evaluates [*pwcs] is at most [k], and when no
    traversed element is non-printable it reads the offsets [0], ..., [k],
    all of them, the offset [k] included: the zero element or, when
    [n] elements were consumed, the element after them, [pwcs[n]]. *)
Theorem mk_wcswidth_reads_spec (pwcs : buffer) (n k : nat) :
  stops_at pwcs n k ->
  (forall j, In j (mk_wcswidth_reads pwcs 0 n) -> (j <= k)%nat) /\
  ((forall j, (j < k)%nat -> mk_wcwidth (pwcs j) <> -1) ->
   mk_wcswidth_reads pwcs 0 n = seq 0 (S k)).
Proof.
  intros Hk. apply stops_at_unique in Hk. subst k. split.
  - intros j Hin. pose proof (mk_wcswidth_reads_bound pwcs 0 n j Hin). lia.
  - intros Hall. apply mk_wcswidth_reads_all. exact Hall.
Qed.

Lemma mk_wcswidth_reads_spec_witness :
  stops_at (cells [0x41; 0x42; 0x43] (fun _ => 0x44)) 3 3 /\
  mk_wcswidth_reads (cells [0x41; 0x42; 0x43] (fun _ => 0x44)) 0 3 =
  [0; 1; 2; 3]%nat.
Proof.
  assert (Hk : stops_at (cells [0x41; 0x42; 0x43] (fun _ => 0x44)) 3 3).
  { split; [lia | split].
    - intros [|[|[|j]]] Hj; [discriminate | discriminate | discriminate | lia].
    - lia. }
  split; [exact Hk |].
  apply (proj2 (mk_wcswidth_reads_spec _ 3%nat 3%nat Hk)).
  intros [|[|[|j]]] Hj; [| | | lia]; vm_compute; discriminate.
Defined.

(** ** Sample evaluations *)

Example bisearch_wide_4e00 : bisearch 0x4e00 wide (last_index wide) = true.
Proof. vm_compute. reflexivity. Qed.

Example bisearch_combining_20a9 :
  bisearch 0x20a9 combining (last_index combining) = false.
Proof. vm_compute. reflexivity. Qed.

Example mk_wcwidth_unassigned : mk_wcwidth 0xFFFFFFFF = 1.
Proof. vm_compute. reflexivity. Qed.

Example mk_wcswidth_abc rest :
  mk_wcswidth (cells [0x41; 0x42; 0x43] rest) 3 = 3.
Proof. vm_compute. destruct (rest 0%nat); reflexivity. Qed.

Example mk_wcswidth_ideographs rest :
  mk_wcswidth (cells [0x4E2D; 0x6587] rest) 2 = 4.
Proof. vm_compute. destruct (rest 0%nat); reflexivity. Qed.

Example mk_wcswidth_cjk_section_sign rest :
  mk_wcswidth_cjk (cells [0x41; 0x00A7; 0x20A9; 0] rest) 9 = 4.
Proof. vm_compute. reflexivity. Qed.
